(** * SignalForge native store: a shallow embedding of [jsiStore.h] / [jsiStore.cpp]

    The development follows the three classes of the native core:
    [SignalValue] (a tagged scalar), [Signal] (a versioned cell with
    subscribers) and [JSISignalStore] (the keyed registry).  Methods that
    mutate objects or may throw are written in a small state-and-exception
    monad over the process state; the sequential behaviour of the code is
    modelled, thread interleavings are not. *)

From Stdlib Require Import ZArith Ascii Floats.PrimFloat Floats.SpecFloat Floats.FloatOps.
From stdpp Require Import base numbers option list strings gmap pretty.

Local Open Scope Z_scope.

(** ** Machine integers

    [uint64_t] and (on the 64-bit targets the library is built for)
    [size_t] are 64-bit unsigned integers: values live in [0, 2^64) and
    [fetch_add] / [++] wrap around. *)

Definition UINT64_MODULUS : Z := 2 ^ 64.

Definition uint64_wrap (z : Z) : Z := z mod UINT64_MODULUS.

Definition uint64_add (a b : Z) : Z := uint64_wrap (a + b).

Definition is_uint64 (z : Z) : Prop := 0 <= z < UINT64_MODULUS.

(** ** The host runtime's dynamic value, [jsi::Value]

    [jsi::Value] is declared in [<jsi/jsi.h>], a header of the host runtime
    and not of this library.  Only the part the code inspects is kept: the
    five primitive kinds tested by [isUndefined] ... [isString], and one
    constructor for everything else (objects, arrays, functions, ...),
    which carries the text that [value.toString(rt).utf8(rt)] yields. *)

Module jsi.

Inductive Value : Type :=
| undefined
| null
| Bool (b : bool)
| Number (d : float)
| String (utf8 : string)
| Object (toString : string).

Definition isObject (v : Value) : bool :=
  match v with Object _ => true | _ => false end.

End jsi.

(** ** [class SignalValue] *)

Module SignalValue.

(** [enum class Type] *)
Inductive Type_ : Type :=
| Undefined
| Null
| Boolean
| Number
| String
| Object.

#[global] Instance Type_eq_dec : EqDecision Type_.
Proof. solve_decision. Defined.

(** The four private members. *)
Record t : Type := mk {
  type_ : Type_;
  boolValue_ : bool;
  numberValue_ : float;
  stringValue_ : string
}.

(** [SignalValue()]; [stringValue_] is default-constructed, hence empty. *)
Definition default : t := mk Undefined false 0%float "".

(** [SignalValue(bool)] *)
Definition of_bool (value : bool) : t := mk Boolean value 0%float "".

(** [SignalValue(double)] *)
Definition of_double (value : float) : t := mk Number false value "".

(** [SignalValue(const std::string&)] *)
Definition of_string (value : string) : t := mk String false 0%float value.

(** [SignalValue(jsi::Runtime&, const jsi::Value&)]: the member initialisers
    set [boolValue_] and [numberValue_], the body then classifies. *)
Definition of_jsi (value : jsi.Value) : t :=
  match value with
  | jsi.undefined => mk Undefined false 0%float ""
  | jsi.null => mk Null false 0%float ""
  | jsi.Bool b => mk Boolean b 0%float ""
  | jsi.Number d => mk Number false d ""
  | jsi.String s => mk String false 0%float s
  | jsi.Object s => mk Object false 0%float s
  end.

Definition getType (v : t) : Type_ := type_ v.
Definition asBoolean (v : t) : bool := boolValue_ v.
Definition asNumber (v : t) : float := numberValue_ v.
Definition asString (v : t) : string := stringValue_ v.

(** [toJSI]: the [switch] over [type_].  The [default:] arm of the source
    is unreachable for the six enumerators. *)
Definition toJSI (v : t) : jsi.Value :=
  match type_ v with
  | Undefined => jsi.undefined
  | Null => jsi.null
  | Boolean => jsi.Bool (boolValue_ v)
  | Number => jsi.Number (numberValue_ v)
  | String => jsi.String (stringValue_ v)
  | Object => jsi.String (stringValue_ v)
  end.

(** The values the class can hold: those built by one of its five
    constructors (copies preserve all members). *)
Inductive constructed : t -> Prop :=
| constructed_default : constructed default
| constructed_bool b : constructed (of_bool b)
| constructed_double d : constructed (of_double d)
| constructed_string s : constructed (of_string s)
| constructed_jsi j : constructed (of_jsi j).

End SignalValue.

(** ** Exceptions, outcomes and subscriber callbacks *)

(** What a C++ call may throw: the [std::runtime_error] the store raises,
    or anything else (a subscriber callback is arbitrary user code). *)
Inductive exception : Type :=
| runtime_error (what : string)
| foreign_exception (payload : string).

(** The outcome of a call.  [Undefined_behaviour] stands for what C++ leaves
    undefined: using a pointer to no live object, or indexing a vector out
    of range. *)
Inductive outcome (A : Type) : Type :=
| Returned (a : A)
| Thrown (e : exception)
| Undefined_behaviour.

Arguments Returned {A} a.
Arguments Thrown {A} e.
Arguments Undefined_behaviour {A}.

(** A [std::function<void(const SignalValue&)>]: user code that receives the
    value, acts on the subscriber's own world [W], and either returns
    ([None]) or throws ([Some e]).  Callbacks that call back into a signal
    are the subject of the second model, [Reentrant], below. *)
Definition callback (W : Type) : Type :=
  SignalValue.t -> W -> option exception * W.

(** An address of a [Signal] object, as held by a [std::shared_ptr<Signal>]. *)
Definition loc : Type := N.

(** ** [class Signal]: the data members ([mutex_] has no sequential content) *)
Record Signal (W : Type) : Type := mkSignal {
  value_ : SignalValue.t;
  version_ : Z;
  subscribers_ : gmap Z (callback W);
  nextSubscriberId_ : Z
}.

Arguments mkSignal {W} _ _ _ _.
Arguments value_ {W} _.
Arguments version_ {W} _.
Arguments subscribers_ {W} _.
Arguments nextSubscriberId_ {W} _.

(** ** [class JSISignalStore]: the data members *)
Record JSISignalStore : Type := mkStore {
  signals_ : gmap string loc;
  nextSignalId_ : Z
}.

(** One invocation [callback(currentValue)] made by [Signal::setValue]:
    which signal, which subscription, which argument. *)
Record call : Type := Call {
  call_signal : loc;
  call_subscriber : Z;
  call_value : SignalValue.t
}.

(** ** The process state

    [store] is the singleton returned by [getInstance()], [heap] holds the
    [Signal] objects that shared pointers refer to, [world] is the state the
    subscriber callbacks act on, and [calls] is a ghost log of the callback
    invocations made so far, oldest first.  Reference counts are not
    modelled: a [Signal] no pointer refers to any more simply stays in
    [heap], where no operation can reach it. *)
Record State (W : Type) : Type := mkState {
  store : JSISignalStore;
  heap : gmap loc (Signal W);
  world : W;
  calls : list call
}.

Arguments mkState {W} _ _ _ _.
Arguments store {W} _.
Arguments heap {W} _.
Arguments world {W} _.
Arguments calls {W} _.

(** ** The state-and-exception monad *)

Definition M (W A : Type) : Type := State W -> outcome A * State W.

Section monad.
Context {W : Type}.

Definition ret {A} (a : A) : M W A := fun st => (Returned a, st).

Definition bind {A B} (m : M W A) (k : A -> M W B) : M W B :=
  fun st =>
    match m st with
    | (Returned a, st') => k a st'
    | (Thrown e, st') => (Thrown e, st')
    | (Undefined_behaviour, st') => (Undefined_behaviour, st')
    end.

(** [throw e] *)
Definition throw {A} (e : exception) : M W A := fun st => (Thrown e, st).

(** [try { body } catch (...) { handler }] *)
Definition try_catch_all {A} (body handler : M W A) : M W A :=
  fun st =>
    match body st with
    | (Thrown _, st') => handler st'
    | r => r
    end.

Definition undefined_behaviour {A} : M W A :=
  fun st => (Undefined_behaviour, st).

Definition get_store : M W JSISignalStore := fun st => (Returned (store st), st).

Definition put_store (s : JSISignalStore) : M W unit :=
  fun st => (Returned tt, mkState s (heap st) (world st) (calls st)).

(** [*p] for a shared pointer [p]. *)
Definition deref (p : loc) : M W (Signal W) :=
  fun st =>
    match heap st !! p with
    | Some sg => (Returned sg, st)
    | None => (Undefined_behaviour, st)
    end.

(** Writing the members of the object at [p]. *)
Definition assign (p : loc) (sg : Signal W) : M W unit :=
  fun st => (Returned tt, mkState (store st) (<[p := sg]> (heap st)) (world st) (calls st)).

(** [std::make_shared<Signal>(...)]: the new object lives at an address no
    live object has. *)
Definition make_shared (sg : Signal W) : M W loc :=
  fun st =>
    let p := fresh (dom (heap st)) in
    (Returned p, mkState (store st) (<[p := sg]> (heap st)) (world st) (calls st)).

(** [callback(currentValue)], made by the signal at [this] for the
    subscription [id]: the call is logged and the callback runs on the world. *)
Definition invoke (this : loc) (id : Z) (cb : callback W)
    (currentValue : SignalValue.t) : M W unit :=
  fun st =>
    let (thrown, w) := cb currentValue (world st) in
    (match thrown with None => Returned tt | Some e => Thrown e end,
     mkState (store st) (heap st) w (calls st ++ [Call this id currentValue])).

End monad.

Declare Scope cpp_scope.
Delimit Scope cpp_scope with cpp.
Notation "x <- m ;; k" := (bind m (fun x => k))
  (at level 100, m at next level, right associativity) : cpp_scope.
Notation "m ;; k" := (bind m (fun _ => k))
  (at level 100, right associativity) : cpp_scope.
Local Open Scope cpp_scope.

(** A range-based [for] whose body may throw. *)
Fixpoint for_each {W A} (l : list A) (body : A -> M W unit) : M W unit :=
  match l with
  | [] => ret tt
  | x :: l' => body x ;; for_each l' body
  end.

(** ** [Signal]'s member functions, on the object at [this] *)

Module Signal.
Section methods.
Context {W : Type}.

(** [Signal::Signal(const SignalValue&)] *)
Definition new (initialValue : SignalValue.t) : Signal W :=
  mkSignal initialValue 0 ∅ 0.

Definition getValue (this : loc) : M W SignalValue.t :=
  sg <- deref this ;;
  ret (value_ sg).

Definition getVersion (this : loc) : M W Z :=
  sg <- deref this ;;
  ret (version_ sg).

(** The notification loop of [setValue]: each callback in its own
    [try { ... } catch (...) { }].  The iteration order of an
    [unordered_map] is unspecified; [map_to_list] fixes one, and nothing
    proved below depends on which. *)
Definition notify (this : loc) (subscribersCopy : gmap Z (callback W))
    (currentValue : SignalValue.t) : M W unit :=
  for_each (map_to_list subscribersCopy) (fun '(id, cb) =>
    try_catch_all (invoke this id cb currentValue) (ret tt)).

Definition setValue (this : loc) (newValue : SignalValue.t) : M W unit :=
  sg <- deref this ;;
  let sg' := mkSignal newValue (uint64_add (version_ sg) 1)
                      (subscribers_ sg) (nextSubscriberId_ sg) in
  assign this sg' ;;
  let subscribersCopy := subscribers_ sg' in
  let currentValue := value_ sg' in
  notify this subscribersCopy currentValue.

Definition subscribe (this : loc) (cb : callback W) : M W Z :=
  sg <- deref this ;;
  let id := nextSubscriberId_ sg in
  assign this (mkSignal (value_ sg) (version_ sg)
                        (<[id := cb]> (subscribers_ sg)) (uint64_add id 1)) ;;
  ret id.

Definition unsubscribe (this : loc) (id : Z) : M W unit :=
  sg <- deref this ;;
  assign this (mkSignal (value_ sg) (version_ sg)
                        (delete id (subscribers_ sg)) (nextSubscriberId_ sg)).

End methods.
End Signal.

(** ** [JSISignalStore]'s member functions *)

Module JSISignalStore.
Section methods.
Context {W : Type}.

(** [JSISignalStore::JSISignalStore()] *)
Definition new : JSISignalStore := mkStore ∅ 0.

(** The message of the [std::runtime_error] thrown on a failed lookup. *)
Definition NotFound (signalId : string) : exception :=
  runtime_error ("Signal not found: " +:+ signalId).

(** [generateSignalId]; [now] is the reading of
    [system_clock::now().time_since_epoch().count()], an input. *)
Definition generateSignalId (now : Z) : M W string :=
  s <- get_store ;;
  let counter := nextSignalId_ s in
  put_store (mkStore (signals_ s) (uint64_add counter 1)) ;;
  ret ("sig_" +:+ pretty counter +:+ "_" +:+ pretty now).

Definition createSignal (initialValue : SignalValue.t) (now : Z) : M W string :=
  id <- generateSignalId now ;;
  p <- make_shared (Signal.new initialValue) ;;
  s <- get_store ;;
  put_store (mkStore (<[id := p]> (signals_ s)) (nextSignalId_ s)) ;;
  ret id.

Definition getSignal (signalId : string) : M W SignalValue.t :=
  s <- get_store ;;
  match signals_ s !! signalId with
  | None => throw (NotFound signalId)
  | Some signal => Signal.getValue signal
  end.

Definition setSignal (signalId : string) (value : SignalValue.t) : M W unit :=
  s <- get_store ;;
  match signals_ s !! signalId with
  | None => throw (NotFound signalId)
  | Some signal => Signal.setValue signal value
  end.

Definition hasSignal (signalId : string) : M W bool :=
  s <- get_store ;;
  match signals_ s !! signalId with
  | None => ret false
  | Some _ => ret true
  end.

Definition deleteSignal (signalId : string) : M W unit :=
  s <- get_store ;;
  put_store (mkStore (delete signalId (signals_ s)) (nextSignalId_ s)).

Definition getSignalVersion (signalId : string) : M W Z :=
  s <- get_store ;;
  match signals_ s !! signalId with
  | None => throw (NotFound signalId)
  | Some signal => Signal.getVersion signal
  end.

(** Phase 1 of [batchUpdate]: the two vectors grown by [push_back]. *)
Definition collect (signals : gmap string loc)
    (updates : list (string * SignalValue.t)) : list loc * list SignalValue.t :=
  foldl (fun '(signalsToUpdate, valuesToSet) '(signalId, value) =>
           match signals !! signalId with
           | Some signal => (signalsToUpdate ++ [signal], valuesToSet ++ [value])
           | None => (signalsToUpdate, valuesToSet)
           end)
        ([], []) updates.

(** Phase 2: [for (size_t i = 0; i < signalsToUpdate.size(); ++i)]. *)
Definition apply_collected (signalsToUpdate : list loc)
    (valuesToSet : list SignalValue.t) : M W unit :=
  for_each (seq 0 (length signalsToUpdate)) (fun i =>
    match signalsToUpdate !! i, valuesToSet !! i with
    | Some signal, Some value => Signal.setValue signal value
    | _, _ => undefined_behaviour
    end).

Definition batchUpdate (updates : list (string * SignalValue.t)) : M W unit :=
  s <- get_store ;;
  let '(signalsToUpdate, valuesToSet) := collect (signals_ s) updates in
  apply_collected signalsToUpdate valuesToSet.

Definition getSignalCount : M W Z :=
  s <- get_store ;;
  ret (Z.of_nat (size (signals_ s))).

Definition clear : M W unit :=
  s <- get_store ;;
  put_store (mkStore ∅ (nextSignalId_ s)).

End methods.
End JSISignalStore.

(** The process at start-up: the singleton freshly constructed, no [Signal]
    allocated, no callback invoked yet. *)
Definition initial_state {W} (w : W) : State W :=
  mkState JSISignalStore.new ∅ w [].

(** ** Calls arriving from the boundary adapter

    One [request] per public member function of the store.  The adapter
    catches what a call throws and the process goes on, so a sequence of
    requests is served one after the other whatever their outcomes. *)

Inductive request : Type :=
| CreateSignal (initialValue : SignalValue.t) (now : Z)
| GetSignal (signalId : string)
| SetSignal (signalId : string) (value : SignalValue.t)
| HasSignal (signalId : string)
| DeleteSignal (signalId : string)
| GetSignalVersion (signalId : string)
| BatchUpdate (updates : list (string * SignalValue.t))
| GetSignalCount
| Clear.

Inductive reply : Type :=
| SignalId (id : string)
| Value (v : SignalValue.t)
| Flag (b : bool)
| Count (n : Z)
| Void.

Definition perform {W} (r : request) : M W reply :=
  match r with
  | CreateSignal v now => id <- JSISignalStore.createSignal v now ;; ret (SignalId id)
  | GetSignal id => v <- JSISignalStore.getSignal id ;; ret (Value v)
  | SetSignal id v => JSISignalStore.setSignal id v ;; ret Void
  | HasSignal id => b <- JSISignalStore.hasSignal id ;; ret (Flag b)
  | DeleteSignal id => JSISignalStore.deleteSignal id ;; ret Void
  | GetSignalVersion id => n <- JSISignalStore.getSignalVersion id ;; ret (Count n)
  | BatchUpdate updates => JSISignalStore.batchUpdate updates ;; ret Void
  | GetSignalCount => n <- JSISignalStore.getSignalCount ;; ret (Count n)
  | Clear => JSISignalStore.clear ;; ret Void
  end.

Fixpoint serve {W} (rs : list request) (st : State W) : list (outcome reply) * State W :=
  match rs with
  | [] => ([], st)
  | r :: rs' =>
      let (o, st') := perform r st in
      let (os, st'') := serve rs' st' in
      (o :: os, st'')
  end.

(** The ids that [createSignal] handed out in a list of outcomes. *)
Definition created_ids (os : list (outcome reply)) : list string :=
  omap (fun o => match o with Returned (SignalId id) => Some id | _ => None end) os.

Definition is_create (r : request) : bool :=
  match r with CreateSignal _ _ => true | _ => false end.

(** ** Well-formed states

    What [std::shared_ptr] and [make_shared] guarantee by construction:
    every pointer the store holds refers to a live [Signal], and no two
    entries share one. *)
Definition store_wf {W} (st : State W) : Prop :=
  (forall id p, signals_ (store st) !! id = Some p -> is_Some (heap st !! p)) /\
  (forall id1 id2 p, signals_ (store st) !! id1 = Some p ->
                     signals_ (store st) !! id2 = Some p -> id1 = id2).

(** The calls in a log made by the signal at [this] for subscription [id],
    as the list of values passed. *)
Definition calls_of (this : loc) (id : Z) (log : list call) : list SignalValue.t :=
  call_value <$> filter (fun c => call_signal c = this /\ call_subscriber c = id) log.

(** The world after the callbacks of a notification round have run, in
    iteration order; a callback's effects stay whether it returned or threw. *)
Definition run_callbacks {W} (l : list (Z * callback W)) (v : SignalValue.t) (w : W) : W :=
  foldl (fun w '(_, cb) => (cb v w).2) w l.

(** The signal after one write of [v]. *)
Definition written {W} (sg : Signal W) (v : SignalValue.t) : Signal W :=
  mkSignal v (uint64_add (version_ sg) 1) (subscribers_ sg) (nextSubscriberId_ sg).


(** The state after a notification round over the entries [l]. *)
Definition notified {W} (this : loc) (l : list (Z * callback W))
    (v : SignalValue.t) (st : State W) : State W :=
  mkState (store st) (heap st) (run_callbacks l v (world st))
          (calls st ++ ((fun x => Call this x.1 v) <$> l)).

(** The callback invocations logged between an earlier state and a later one. *)
Definition new_calls {W} (before after : State W) : list call :=
  drop (length (calls before)) (calls after).

(** The signal after the writes [ws], in order. *)
Definition after_writes {W} (sg : Signal W) (ws : list SignalValue.t) : Signal W :=
  foldl written sg ws.

(** The updates of a batch whose id is in the store, each with the signal
    its id resolves to. *)
Definition resolve (signals : gmap string loc)
    (updates : list (string * SignalValue.t)) : list (loc * SignalValue.t) :=
  omap (fun u => (fun p => (p, u.2)) <$> signals !! u.1) updates.

(** The updates of a batch whose id is in the store. *)
Definition found (signals : gmap string loc)
    (updates : list (string * SignalValue.t)) : list (string * SignalValue.t) :=
  filter (fun u => is_Some (signals !! u.1)) updates.

(** The values a batch holds for one id, and those a resolved batch holds
    for one signal, in order. *)
Definition values_for (id : string) (updates : list (string * SignalValue.t)) :
    list SignalValue.t :=
  (filter (fun u => u.1 = id) updates).*2.

Definition writes_to (p : loc) (pvs : list (loc * SignalValue.t)) : list SignalValue.t :=
  (filter (fun pv => pv.1 = p) pvs).*2.

(** The text has no underscore (as the decimal rendering of a counter). *)
Fixpoint no_underscore (s : string) : Prop :=
  match s with
  | EmptyString => True
  | String.String a s' => a <> "_"%char /\ no_underscore s'
  end.

(** How many of the requests are calls of [createSignal]. *)
Definition creations (rs : list request) : nat :=
  length (filter (fun r => is_create r = true) rs).

(** ** The host functions of [installJSIBindings]

    Each lambda handed to [jsi::Function::createFromHostFunction] receives
    the argument array ([args], [count]) as a list and completes by
    returning a [jsi::Value], by throwing a [jsi::JSError] with a message,
    or by letting a native exception through.  [batchUpdateFunc] walks a
    JavaScript array through [jsi::Object] accessors of the host runtime and
    is not modelled. *)

(** [static_cast<double>(version)]: the nearest binary64 number, ties to even. *)
Definition double_of_uint64 (z : Z) : float :=
  SF2Prim (binary_normalize prec emax z 0 false).

(** A [std::string] read through [c_str()] as a C string, as happens when
    [e.what()] is handed to [jsi::JSError]: the characters before the first
    NUL. *)
Fixpoint c_str (s : string) : string :=
  match s with
  | EmptyString => EmptyString
  | String.String a s' =>
      if Ascii.eqb a "000"%char then EmptyString else String.String a (c_str s')
  end.

Module bindings.

Inductive completion : Type :=
| Return (v : jsi.Value)
| JSError (message : string)
| Escaped (e : exception)
| Undefined.

Section host_functions.
Context {W : Type}.

Definition HostFunction : Type := list jsi.Value -> State W -> completion * State W.

(** A store call made outside any [try]: what it throws leaves the host
    function as it is. *)
Definition uncaught {A} (m : M W A) (k : A -> jsi.Value) : State W -> completion * State W :=
  fun st =>
    match m st with
    | (Returned a, st') => (Return (k a), st')
    | (Thrown e, st') => (Escaped e, st')
    | (Undefined_behaviour, st') => (Undefined, st')
    end.

(** [try { ... } catch (const std::exception& e) { throw jsi::JSError(rt, e.what()); }];
    of the two kinds of [exception], [runtime_error] is the one known to
    derive from [std::exception], and [what()] is a C string. *)
Definition rethrown {A} (m : M W A) (k : A -> jsi.Value) : State W -> completion * State W :=
  fun st =>
    match m st with
    | (Returned a, st') => (Return (k a), st')
    | (Thrown (runtime_error what), st') => (JSError (c_str what), st')
    | (Thrown e, st') => (Escaped e, st')
    | (Undefined_behaviour, st') => (Undefined, st')
    end.

(** [__signalForgeCreateSignal]: fails when [count < 1]. *)
Definition createSignalFunc (now : Z) : HostFunction :=
  fun args st =>
    match args with
    | [] => (JSError "createSignal requires 1 argument", st)
    | initialValue :: _ =>
        uncaught (JSISignalStore.createSignal (SignalValue.of_jsi initialValue) now)
                 jsi.String st
    end.

(** [__signalForgeGetSignal]: fails when [count < 1 || !args[0].isString()]. *)
Definition getSignalFunc : HostFunction :=
  fun args st =>
    match args with
    | jsi.String signalId :: _ =>
        rethrown (JSISignalStore.getSignal signalId) SignalValue.toJSI st
    | _ => (JSError "getSignal requires a string signal ID", st)
    end.

(** [__signalForgeSetSignal]: fails when [count < 2 || !args[0].isString()]. *)
Definition setSignalFunc : HostFunction :=
  fun args st =>
    match args with
    | jsi.String signalId :: newValue :: _ =>
        rethrown (JSISignalStore.setSignal signalId (SignalValue.of_jsi newValue))
                 (fun _ => jsi.undefined) st
    | _ => (JSError "setSignal requires signal ID and new value", st)
    end.

(** [__signalForgeHasSignal] *)
Definition hasSignalFunc : HostFunction :=
  fun args st =>
    match args with
    | jsi.String signalId :: _ =>
        uncaught (JSISignalStore.hasSignal signalId) jsi.Bool st
    | _ => (JSError "hasSignal requires a string signal ID", st)
    end.

(** [__signalForgeDeleteSignal] *)
Definition deleteSignalFunc : HostFunction :=
  fun args st =>
    match args with
    | jsi.String signalId :: _ =>
        uncaught (JSISignalStore.deleteSignal signalId) (fun _ => jsi.undefined) st
    | _ => (JSError "deleteSignal requires a string signal ID", st)
    end.

(** [__signalForgeGetVersion] *)
Definition getVersionFunc : HostFunction :=
  fun args st =>
    match args with
    | jsi.String signalId :: _ =>
        rethrown (JSISignalStore.getSignalVersion signalId)
                 (fun version => jsi.Number (double_of_uint64 version)) st
    | _ => (JSError "getVersion requires a string signal ID", st)
    end.

End host_functions.

(** A call from JavaScript to one of the six installed globals above.  The
    seventh, [__signalForgeBatchUpdate], reads a JavaScript array of objects
    through the runtime and is not modelled. *)
Inductive invocation : Type :=
| CallCreateSignal (now : Z)
| CallGetSignal
| CallSetSignal
| CallHasSignal
| CallDeleteSignal
| CallGetVersion.

Definition dispatch {W} (f : invocation) : list jsi.Value -> State W -> completion * State W :=
  match f with
  | CallCreateSignal now => createSignalFunc now
  | CallGetSignal => getSignalFunc
  | CallSetSignal => setSignalFunc
  | CallHasSignal => hasSignalFunc
  | CallDeleteSignal => deleteSignalFunc
  | CallGetVersion => getVersionFunc
  end.

(** The message each host function throws for a malformed argument list. *)
Definition usage (f : invocation) : string :=
  match f with
  | CallCreateSignal _ => "createSignal requires 1 argument"
  | CallGetSignal => "getSignal requires a string signal ID"
  | CallSetSignal => "setSignal requires signal ID and new value"
  | CallHasSignal => "hasSignal requires a string signal ID"
  | CallDeleteSignal => "deleteSignal requires a string signal ID"
  | CallGetVersion => "getVersion requires a string signal ID"
  end.

(** The argument list passes the host function's own check:
    [count >= 1] for create, [count >= 2 && args[0].isString()] for set,
    [count >= 1 && args[0].isString()] for the rest. *)
Definition well_formed (f : invocation) (args : list jsi.Value) : bool :=
  match f, args with
  | CallCreateSignal _, _ :: _ => true
  | CallSetSignal, jsi.String _ :: _ :: _ => true
  | CallSetSignal, _ => false
  | CallCreateSignal _, _ => false
  | _, jsi.String _ :: _ => true
  | _, _ => false
  end.

End bindings.

(** What a [jsi::Value] looks like after a trip through the store: an
    object comes back as the string of its text. *)
Definition flattened (j : jsi.Value) : jsi.Value :=
  match j with jsi.Object text => jsi.String text | _ => j end.

(** ** Invariants of reachable states *)

(** Every id in the store was made from a counter value already used. *)
Definition ids_below {W} (st : State W) : Prop :=
  forall id p, signals_ (store st) !! id = Some p ->
    exists k now : Z,
      0 <= k < nextSignalId_ (store st)
      /\ id = "sig_" +:+ pretty k +:+ "_" +:+ pretty now.

(** No live signal has a subscriber. *)
Definition no_subscribers {W} (st : State W) : Prop :=
  forall p sg, heap st !! p = Some sg -> subscribers_ sg = ∅.

(** Every registered subscription id was handed out by [subscribe] before. *)
Definition subscriptions_below {W} (sg : Signal W) : Prop :=
  0 <= nextSubscriberId_ sg
  /\ forall id, is_Some (subscribers_ sg !! id) -> 0 <= id < nextSubscriberId_ sg.

(** The outcome of a read, without the state. *)
Definition answer {W A} (m : M W A) (st : State W) : outcome A := (m st).1.

(** ** Calls on one [Signal] object

    One [signal_call] per public member function of [Signal], made on the
    object at [this] by whoever holds it. *)

Inductive signal_call (W : Type) : Type :=
| GetValue
| SetValue (newValue : SignalValue.t)
| GetVersion
| Subscribe (cb : callback W)
| Unsubscribe (id : Z).

Arguments GetValue {W}.
Arguments SetValue {W} newValue.
Arguments GetVersion {W}.
Arguments Subscribe {W} cb.
Arguments Unsubscribe {W} id.

Inductive signal_reply : Type :=
| Held (v : SignalValue.t)
| Version (n : Z)
| Subscription (id : Z)
| Done.

Definition signal_perform {W} (this : loc) (c : signal_call W) : M W signal_reply :=
  match c with
  | GetValue => v <- Signal.getValue this ;; ret (Held v)
  | SetValue v => Signal.setValue this v ;; ret Done
  | GetVersion => n <- Signal.getVersion this ;; ret (Version n)
  | Subscribe cb => id <- Signal.subscribe this cb ;; ret (Subscription id)
  | Unsubscribe id => Signal.unsubscribe this id ;; ret Done
  end.

Fixpoint signal_serve {W} (this : loc) (cs : list (signal_call W)) (st : State W) :
    list (outcome signal_reply) * State W :=
  match cs with
  | [] => ([], st)
  | c :: cs' =>
      let (o, st') := signal_perform this c st in
      let (os, st'') := signal_serve this cs' st' in
      (o :: os, st'')
  end.

(** The subscription ids that [subscribe] handed out in a list of outcomes. *)
Definition subscribed_ids (os : list (outcome signal_reply)) : list Z :=
  omap (fun o => match o with Returned (Subscription id) => Some id | _ => None end) os.

Definition is_subscribe {W} (c : signal_call W) : bool :=
  match c with Subscribe _ => true | _ => false end.

Definition subscriptions {W} (cs : list (signal_call W)) : nat :=
  length (filter (fun c => is_subscribe c = true) cs).

(** The text holds no NUL character. *)
Fixpoint no_nul (s : string) : Prop :=
  match s with
  | EmptyString => True
  | String.String a s' => a <> "000"%char /\ no_nul s'
  end.

(** ** Subscribers that call back into signals

    A [std::function] subscriber is code: besides acting on its own state
    it can hold a [Signal] and call its member functions while it runs,
    which [setValue] permits by making its calls outside the lock and over
    a copy of the registry.  In this second model of [Signal] the body of a
    callback is a [handler], the tree of the steps it takes: finish, throw,
    act on or look at its own state, or call a member function of the
    signal at some address and go on with what the call returned.  A
    callback that writes to its own signal never returns, so running takes
    a step budget and yields [None] when the budget runs out. *)

Module Reentrant.

Inductive handler (W : Type) : Type :=
| Finish
| Raise (e : exception)
| Update (f : W -> W) (next : handler W)
| Inspect (next : W -> handler W)
| CallGetValue (p : loc) (next : SignalValue.t -> handler W)
| CallGetVersion (p : loc) (next : Z -> handler W)
| CallSetValue (p : loc) (newValue : SignalValue.t) (next : handler W)
| CallSubscribe (p : loc) (cb : SignalValue.t -> handler W) (next : Z -> handler W)
| CallUnsubscribe (p : loc) (id : Z) (next : handler W).

Arguments Finish {W}.
Arguments Raise {W} e.
Arguments Update {W} f next.
Arguments Inspect {W} next.
Arguments CallGetValue {W} p next.
Arguments CallGetVersion {W} p next.
Arguments CallSetValue {W} p newValue next.
Arguments CallSubscribe {W} p cb next.
Arguments CallUnsubscribe {W} p id next.

(** [class Signal], its subscribers being such callbacks. *)
Record Signal (W : Type) : Type := mkSignal {
  value_ : SignalValue.t;
  version_ : Z;
  subscribers_ : gmap Z (SignalValue.t -> handler W);
  nextSubscriberId_ : Z
}.

Arguments mkSignal {W} _ _ _ _.
Arguments value_ {W} _.
Arguments version_ {W} _.
Arguments subscribers_ {W} _.
Arguments nextSubscriberId_ {W} _.

(** The [Signal] objects client code holds, the subscribers' world and the
    log of callback invocations. *)
Record State (W : Type) : Type := mkState {
  heap : gmap loc (Signal W);
  world : W;
  calls : list call
}.

Arguments mkState {W} _ _ _.
Arguments heap {W} _.
Arguments world {W} _.
Arguments calls {W} _.

Section members.
Context {W : Type}.

Definition getValue (this : loc) (st : State W) : outcome SignalValue.t * State W :=
  match heap st !! this with
  | Some sg => (Returned (value_ sg), st)
  | None => (Undefined_behaviour, st)
  end.

Definition getVersion (this : loc) (st : State W) : outcome Z * State W :=
  match heap st !! this with
  | Some sg => (Returned (version_ sg), st)
  | None => (Undefined_behaviour, st)
  end.

Definition subscribe (this : loc) (cb : SignalValue.t -> handler W) (st : State W) :
    outcome Z * State W :=
  match heap st !! this with
  | Some sg =>
      let id := nextSubscriberId_ sg in
      (Returned id,
       mkState (<[this := mkSignal (value_ sg) (version_ sg)
                            (<[id := cb]> (subscribers_ sg)) (uint64_add id 1)]> (heap st))
               (world st) (calls st))
  | None => (Undefined_behaviour, st)
  end.

Definition unsubscribe (this : loc) (id : Z) (st : State W) : outcome unit * State W :=
  match heap st !! this with
  | Some sg =>
      (Returned tt,
       mkState (<[this := mkSignal (value_ sg) (version_ sg)
                            (delete id (subscribers_ sg)) (nextSubscriberId_ sg)]> (heap st))
               (world st) (calls st))
  | None => (Undefined_behaviour, st)
  end.

(** The signal after one write of [v]. *)
Definition written (sg : Signal W) (v : SignalValue.t) : Signal W :=
  mkSignal v (uint64_add (version_ sg) 1) (subscribers_ sg) (nextSubscriberId_ sg).

Section with_runner.
(** How the body of a callback is run. *)
Variable run : handler W -> State W -> option (outcome unit * State W).

(** [try { callback(currentValue); } catch (...) { }], the call logged. *)
Definition deliver (this : loc) (id : Z) (cb : SignalValue.t -> handler W)
    (currentValue : SignalValue.t) (st : State W) : option (outcome unit * State W) :=
  match run (cb currentValue)
            (mkState (heap st) (world st) (calls st ++ [Call this id currentValue])) with
  | Some (Thrown _, st') => Some (Returned tt, st')
  | r => r
  end.

(** The loop over [subscribersCopy]. *)
Fixpoint notify (this : loc) (subscribersCopy : list (Z * (SignalValue.t -> handler W)))
    (currentValue : SignalValue.t) (st : State W) : option (outcome unit * State W) :=
  match subscribersCopy with
  | [] => Some (Returned tt, st)
  | (id, cb) :: rest =>
      match deliver this id cb currentValue st with
      | Some (Returned _, st') => notify this rest currentValue st'
      | r => r
      end
  end.

Definition setValue_with (this : loc) (newValue : SignalValue.t) (st : State W) :
    option (outcome unit * State W) :=
  match heap st !! this with
  | Some sg =>
      let sg' := written sg newValue in
      let subscribersCopy := subscribers_ sg' in
      let currentValue := value_ sg' in
      notify this (map_to_list subscribersCopy) currentValue
             (mkState (<[this := sg']> (heap st)) (world st) (calls st))
  | None => Some (Undefined_behaviour, st)
  end.

End with_runner.

(** Running the body of a callback within [budget] steps. *)
Fixpoint run (budget : nat) (h : handler W) (st : State W) :
    option (outcome unit * State W) :=
  match budget with
  | O => None
  | S budget' =>
      match h with
      | Finish => Some (Returned tt, st)
      | Raise e => Some (Thrown e, st)
      | Update f next => run budget' next (mkState (heap st) (f (world st)) (calls st))
      | Inspect next => run budget' (next (world st)) st
      | CallGetValue p next =>
          match getValue p st with
          | (Returned v, st') => run budget' (next v) st'
          | (Thrown e, st') => Some (Thrown e, st')
          | (Undefined_behaviour, st') => Some (Undefined_behaviour, st')
          end
      | CallGetVersion p next =>
          match getVersion p st with
          | (Returned n, st') => run budget' (next n) st'
          | (Thrown e, st') => Some (Thrown e, st')
          | (Undefined_behaviour, st') => Some (Undefined_behaviour, st')
          end
      | CallSetValue p newValue next =>
          match setValue_with (run budget') p newValue st with
          | Some (Returned _, st') => run budget' next st'
          | r => r
          end
      | CallSubscribe p cb next =>
          match subscribe p cb st with
          | (Returned id, st') => run budget' (next id) st'
          | (Thrown e, st') => Some (Thrown e, st')
          | (Undefined_behaviour, st') => Some (Undefined_behaviour, st')
          end
      | CallUnsubscribe p id next =>
          match unsubscribe p id st with
          | (Returned _, st') => run budget' next st'
          | (Thrown e, st') => Some (Thrown e, st')
          | (Undefined_behaviour, st') => Some (Undefined_behaviour, st')
          end
      end
  end.

(** [Signal::setValue], its callbacks run within [budget] steps each. *)
Definition setValue (budget : nat) (this : loc) (newValue : SignalValue.t) (st : State W) :
    option (outcome unit * State W) :=
  setValue_with (run budget) this newValue st.

(** A writer's run of writes to one signal. *)
Fixpoint writes (budget : nat) (this : loc) (ws : list SignalValue.t) (st : State W) :
    option (outcome unit * State W) :=
  match ws with
  | [] => Some (Returned tt, st)
  | v :: ws' =>
      match setValue budget this v st with
      | Some (Returned _, st') => writes budget this ws' st'
      | r => r
      end
  end.

(** *** Callbacks that change no signal

    A [quiet] callback acts on its own state, may read the signals in
    [live], and may throw; it never calls [setValue], [subscribe] or
    [unsubscribe]. *)
Inductive quiet (live : gset loc) : handler W -> Prop :=
| quiet_Finish : quiet live Finish
| quiet_Raise e : quiet live (Raise e)
| quiet_Update f next : quiet live next -> quiet live (Update f next)
| quiet_Inspect next : (forall w, quiet live (next w)) -> quiet live (Inspect next)
| quiet_CallGetValue p next :
    p ∈ live -> (forall v, quiet live (next v)) -> quiet live (CallGetValue p next)
| quiet_CallGetVersion p next :
    p ∈ live -> (forall n, quiet live (next n)) -> quiet live (CallGetVersion p next).

(** What a quiet callback body throws, if anything, and the world it leaves,
    given the signals it may read. *)
Fixpoint effect (signals : gmap loc (Signal W)) (h : handler W) (w : W) :
    option exception * W :=
  match h with
  | Finish => (None, w)
  | Raise e => (Some e, w)
  | Update f next => effect signals next (f w)
  | Inspect next => effect signals (next w) w
  | CallGetValue p next =>
      match signals !! p with
      | Some sg => effect signals (next (value_ sg)) w
      | None => (None, w)
      end
  | CallGetVersion p next =>
      match signals !! p with
      | Some sg => effect signals (next (version_ sg)) w
      | None => (None, w)
      end
  | CallSetValue _ _ _ | CallSubscribe _ _ _ | CallUnsubscribe _ _ _ => (None, w)
  end.

(** The world after one round of quiet callbacks, run in the order given on
    the value [v]; what a callback did stays whether it returned or threw. *)
Definition round (signals : gmap loc (Signal W))
    (order : list (Z * (SignalValue.t -> handler W))) (v : SignalValue.t) (w : W) : W :=
  foldl (fun w x => (effect signals (x.2 v) w).2) w order.

(** The state after one write of [v] whose round of callbacks ran in [order]. *)
Definition after_round (this : loc) (sg : Signal W)
    (order : list (Z * (SignalValue.t -> handler W))) (v : SignalValue.t) (st : State W) :
    State W :=
  mkState (<[this := written sg v]> (heap st))
          (round (<[this := written sg v]> (heap st)) order v (world st))
          (calls st ++ ((fun x => Call this x.1 v) <$> order)).

(** A run of writes in which each write replaces the value, steps the
    version, and then runs every callback of the registry exactly once on
    the value written, in some order. *)
Inductive each_write_delivered (this : loc) :
    list SignalValue.t -> State W -> State W -> Prop :=
| delivered_none st : each_write_delivered this [] st st
| delivered_write v ws st sg order st' :
    heap st !! this = Some sg ->
    order ≡ₚ map_to_list (subscribers_ sg) ->
    each_write_delivered this ws (after_round this sg order v st) st' ->
    each_write_delivered this (v :: ws) st st'.

(** Every callback registered on the signal at [this] is quiet. *)
Definition quiet_registry (this : loc) (st : State W) : Prop :=
  forall sg id cb v,
    heap st !! this = Some sg -> subscribers_ sg !! id = Some cb ->
    quiet (dom (heap st)) (cb v).

(** The invocations logged between two states. *)
Definition new_calls (before after : State W) : list call :=
  drop (length (calls before)) (calls after).

End members.
End Reentrant.

(** ** Two concrete scenarios

    A world that records the values its subscribers receive, a subscriber
    that records, one that throws, and two states: a store serving its first
    two [createSignal] calls, and a lone signal with both subscribers. *)

Definition recorder : callback (list SignalValue.t) :=
  fun v w => (None, w ++ [v]).

Definition thrower : callback (list SignalValue.t) :=
  fun _ w => (Some (foreign_exception "subscriber failed"), w).

Definition two_signals : State (list SignalValue.t) :=
  (serve [CreateSignal (SignalValue.of_double 42%float) 1700000000;
          CreateSignal (SignalValue.of_bool false) 1700000001]
         (initial_state [])).2.

Definition watched_signal : Signal (list SignalValue.t) :=
  mkSignal (SignalValue.of_double 42%float) 0 (<[0 := thrower]> (<[1 := recorder]> ∅)) 2.

Definition watched : State (list SignalValue.t) :=
  mkState (mkStore (<["sig_0_1700000000" := 0%N]> ∅) 1) (<[0%N := watched_signal]> ∅) [] [].

(** A third scenario: a signal whose failing subscriber sits between two
    recording ones; the failing one leaves a mark in the world, then throws. *)

Definition failing_recorder : callback (list SignalValue.t) :=
  fun _ w => (Some (foreign_exception "subscriber failed"),
              w ++ [SignalValue.of_string "failing"]).

Definition flanked_signal : Signal (list SignalValue.t) :=
  mkSignal (SignalValue.of_double 42%float) 0
           (<[0 := recorder]> (<[1 := failing_recorder]> (<[2 := recorder]> ∅))) 3.

Definition flanked : State (list SignalValue.t) :=
  mkState (mkStore (<["sig_0_1700000000" := 0%N]> ∅) 1) (<[0%N := flanked_signal]> ∅) [] [].

(** Scenarios with callbacks that call back.  [echo] reads the signal at
    address 0 and records what it holds; [once] records the value it is
    given and then unsubscribes subscription 0 of that signal, which is
    itself; [failing_echo] records a mark and throws; [meddling] writes the
    value it is given to the signal at address 1. *)

Definition echo : SignalValue.t -> Reentrant.handler (list SignalValue.t) :=
  fun _ => Reentrant.CallGetValue 0%N (fun held =>
             Reentrant.Update (fun w => w ++ [held]) Reentrant.Finish).

Definition once : SignalValue.t -> Reentrant.handler (list SignalValue.t) :=
  fun v => Reentrant.Update (fun w => w ++ [v])
             (Reentrant.CallUnsubscribe 0%N 0 Reentrant.Finish).

Definition failing_echo : SignalValue.t -> Reentrant.handler (list SignalValue.t) :=
  fun _ => Reentrant.Update (fun w => w ++ [SignalValue.of_string "failing"])
             (Reentrant.Raise (foreign_exception "subscriber failed")).

Definition meddling : SignalValue.t -> Reentrant.handler (list SignalValue.t) :=
  fun v => Reentrant.CallSetValue 1%N v Reentrant.Finish.

(** A new signal at address 0, alone. *)
Definition lone : Reentrant.State (list SignalValue.t) :=
  Reentrant.mkState
    (<[0%N := Reentrant.mkSignal (SignalValue.of_double 42%float) 0 ∅ 0]> ∅) [] [].

(** Two signals: the one at 0 with [failing_echo] and [echo] subscribed, the
    one at 1 with [echo]. *)
Definition listened_signal : Reentrant.Signal (list SignalValue.t) :=
  Reentrant.mkSignal (SignalValue.of_double 42%float) 0
    (<[0 := failing_echo]> (<[1 := echo]> ∅)) 2.

Definition neighbour_signal : Reentrant.Signal (list SignalValue.t) :=
  Reentrant.mkSignal (SignalValue.of_bool false) 0 (<[0 := echo]> ∅) 1.

Definition listened : Reentrant.State (list SignalValue.t) :=
  Reentrant.mkState (<[0%N := listened_signal]> (<[1%N := neighbour_signal]> ∅)) [] [].

(** The same two signals, the one at 0 with [meddling] subscribed instead. *)
Definition meddled : Reentrant.State (list SignalValue.t) :=
  Reentrant.mkState
    (<[0%N := Reentrant.mkSignal (SignalValue.of_double 42%float) 0 (<[0 := meddling]> ∅) 1]>
       (<[1%N := neighbour_signal]> ∅)) [] [].

(** * Properties *)

(** ** Machine arithmetic *)

Lemma uint64_add_no_wrap a b :
  0 <= a + b < UINT64_MODULUS -> uint64_add a b = a + b.
Proof. intros H. unfold uint64_add, uint64_wrap. by apply Z.mod_small. Qed.

Lemma uint64_wrap_add_l a b :
  uint64_wrap (uint64_wrap a + b) = uint64_wrap (a + b).
Proof. unfold uint64_wrap. apply Zplus_mod_idemp_l. Qed.

Lemma uint64_add_range a b : is_uint64 (uint64_add a b).
Proof. unfold is_uint64, uint64_add, uint64_wrap. by apply Z.mod_pos_bound. Qed.

(** ** The members of [Signal] *)

Section signal_facts.
Context {W : Type}.
Implicit Types (st : State W) (sg : Signal W) (cb : callback W).

Lemma state_eta st : mkState (store st) (heap st) (world st) (calls st) = st.
Proof. by destruct st. Qed.

Lemma for_each_notify this v (l : list (Z * callback W)) st :
  for_each l (fun '(id, cb) => try_catch_all (invoke this id cb v) (ret tt)) st
  = (Returned tt, notified this l v st).
Proof.
  revert st. induction l as [|[id cb] l IH]; intros st; simpl.
  - unfold ret, notified, run_callbacks. simpl. rewrite app_nil_r. by destruct st.
  - unfold bind at 1, try_catch_all, invoke.
    destruct (cb v (world st)) as [[e|] w] eqn:Hcb; simpl; unfold ret; rewrite IH;
      unfold notified, run_callbacks; simpl; rewrite Hcb; simpl;
      by rewrite <- app_assoc.
Qed.

Lemma notify_spec this subs v st :
  Signal.notify this subs v st = (Returned tt, notified this (map_to_list subs) v st).
Proof. apply for_each_notify. Qed.

Lemma setValue_spec this v st sg :
  heap st !! this = Some sg ->
  Signal.setValue this v st
  = (Returned tt,
     notified this (map_to_list (subscribers_ sg)) v
       (mkState (store st) (<[this := written sg v]> (heap st)) (world st) (calls st))).
Proof.
  intros Hsg. unfold Signal.setValue, bind, deref, assign. rewrite Hsg. simpl.
  apply notify_spec.
Qed.

Lemma setValue_dangling this v st :
  heap st !! this = None -> Signal.setValue this v st = (Undefined_behaviour, st).
Proof. intros Hsg. unfold Signal.setValue, bind, deref. by rewrite Hsg. Qed.

Lemma for_each_cons_returned {A} (body : A -> M W unit) x l st st' :
  body x st = (Returned tt, st') ->
  for_each (x :: l) body st = for_each l body st'.
Proof. intros H. simpl. unfold bind. by rewrite H. Qed.

Lemma after_writes_snoc sg ws v :
  after_writes sg (ws ++ [v]) = written (after_writes sg ws) v.
Proof. unfold after_writes. by rewrite foldl_app. Qed.

Lemma after_writes_subscribers sg ws :
  subscribers_ (after_writes sg ws) = subscribers_ sg.
Proof.
  revert sg. induction ws as [|v ws IH]; intros sg; [done|].
  unfold after_writes in *. simpl. by rewrite IH.
Qed.

Lemma after_writes_nextSubscriberId sg ws :
  nextSubscriberId_ (after_writes sg ws) = nextSubscriberId_ sg.
Proof.
  revert sg. induction ws as [|v ws IH]; intros sg; [done|].
  unfold after_writes in *. simpl. by rewrite IH.
Qed.

Lemma after_writes_value sg ws v :
  last ws = Some v -> value_ (after_writes sg ws) = v.
Proof.
  destruct ws as [|w ws _] using rev_ind; [done|].
  rewrite last_snoc, after_writes_snoc. by intros [= ->].
Qed.

Lemma after_writes_version_wrap sg ws :
  uint64_wrap (version_ (after_writes sg ws))
  = uint64_wrap (version_ sg + Z.of_nat (length ws)).
Proof.
  induction ws as [|w ws IH] using rev_ind.
  - simpl. by rewrite Z.add_0_r.
  - rewrite after_writes_snoc, length_app. simpl.
    unfold uint64_add, uint64_wrap in *.
    rewrite Zmod_mod, <- Zplus_mod_idemp_l, IH, Zplus_mod_idemp_l.
    f_equal. lia.
Qed.

Lemma after_writes_version sg ws :
  0 <= version_ sg -> version_ sg + Z.of_nat (length ws) < UINT64_MODULUS ->
  version_ (after_writes sg ws) = version_ sg + Z.of_nat (length ws).
Proof.
  induction ws as [|w ws IH] using rev_ind; intros H0 Hlt.
  - simpl. lia.
  - rewrite length_app in Hlt. simpl in Hlt.
    rewrite after_writes_snoc, length_app. simpl.
    rewrite IH by lia. rewrite uint64_add_no_wrap by lia. lia.
Qed.

(** Calls logged by one notification round, seen from one subscription. *)
Lemma calls_of_app this id l1 l2 :
  calls_of this id (l1 ++ l2) = calls_of this id l1 ++ calls_of this id l2.
Proof. unfold calls_of. by rewrite filter_app, fmap_app. Qed.

Lemma calls_of_round_absent this id v (l : list (Z * callback W)) :
  id ∉ l.*1 -> calls_of this id ((fun x => Call this x.1 v) <$> l) = [].
Proof.
  induction l as [|[k cb] l IH]; [done|]. simpl. intros Hid.
  apply not_elem_of_cons in Hid as [Hne Hid].
  unfold calls_of in *. rewrite filter_cons_False; [by apply IH|].
  simpl. intros [_ ?]. by apply Hne.
Qed.

Lemma calls_of_round_present this id v (l : list (Z * callback W)) :
  NoDup l.*1 -> id ∈ l.*1 ->
  calls_of this id ((fun x => Call this x.1 v) <$> l) = [v].
Proof.
  induction l as [|[k cb] l IH]; simpl; intros Hnd Hid.
  - by apply elem_of_nil in Hid.
  - apply NoDup_cons in Hnd as [Hk Hnd].
    destruct (decide (k = id)) as [->|Hne].
    + unfold calls_of. rewrite filter_cons_True by done. simpl. f_equal.
      by apply (calls_of_round_absent this id v l).
    + apply elem_of_cons in Hid as [->|Hid]; [done|].
      unfold calls_of in *. rewrite filter_cons_False; [by apply IH|].
      simpl. intros [_ ?]. by apply Hne.
Qed.

Lemma calls_of_other_signal this other id v (l : list (Z * callback W)) :
  other <> this -> calls_of this id ((fun x => Call other x.1 v) <$> l) = [].
Proof.
  intros Hne. induction l as [|[k cb] l IH]; [done|]. simpl.
  unfold calls_of in *. rewrite filter_cons_False; [by apply IH|].
  simpl. intros [? _]. by apply Hne.
Qed.

Lemma calls_of_subscribed this id v (subs : gmap Z (callback W)) cb :
  subs !! id = Some cb ->
  calls_of this id ((fun x => Call this x.1 v) <$> map_to_list subs) = [v].
Proof.
  intros Hid. apply calls_of_round_present.
  - apply NoDup_fst_map_to_list.
  - apply list_elem_of_fmap. exists (id, cb). split; [done|].
    by apply elem_of_map_to_list.
Qed.

Lemma calls_of_unsubscribed this id v (subs : gmap Z (callback W)) :
  subs !! id = None ->
  calls_of this id ((fun x => Call this x.1 v) <$> map_to_list subs) = [].
Proof.
  intros Hid. apply calls_of_round_absent.
  intros Hin. apply list_elem_of_fmap in Hin as ([k cb] & -> & Hin).
  apply elem_of_map_to_list in Hin. simpl in Hid. congruence.
Qed.

Lemma new_calls_app st st' l :
  calls st' = calls st ++ l -> new_calls st st' = l.
Proof. intros H. unfold new_calls. rewrite H. by rewrite drop_app_length. Qed.

(** A run of writes to one signal, spelled out. *)
Lemma writes_spec this ws st sg :
  heap st !! this = Some sg ->
  exists st' log,
    for_each ws (Signal.setValue this) st = (Returned tt, st')
    /\ store st' = store st
    /\ heap st' = <[this := after_writes sg ws]> (heap st)
    /\ calls st' = calls st ++ log
    /\ (forall id cb, subscribers_ sg !! id = Some cb -> calls_of this id log = ws)
    /\ (forall id, subscribers_ sg !! id = None -> calls_of this id log = []).
Proof.
  revert st sg. induction ws as [|v ws IH]; intros st sg Hsg.
  - exists st, []. simpl. rewrite app_nil_r, insert_id by done. done.
  - pose proof (setValue_spec this v st sg Hsg) as Hstep.
    set (st1 := notified _ _ _ _) in Hstep.
    destruct (IH st1 (written sg v)) as (st' & log & Hrun & Hstore & Hheap & Hcalls & Hin & Hout).
    { subst st1. simpl. apply lookup_insert_eq. }
    exists st', (((fun x => Call this x.1 v) <$> map_to_list (subscribers_ sg)) ++ log).
    split; [|split; [|split; [|split; [|split]]]].
    + by rewrite (for_each_cons_returned _ _ _ _ _ Hstep).
    + by rewrite Hstore.
    + rewrite Hheap. subst st1. simpl. by rewrite insert_insert_eq.
    + rewrite Hcalls. subst st1. simpl. by rewrite app_assoc.
    + intros id cb Hid. rewrite calls_of_app, (calls_of_subscribed _ _ _ _ _ Hid).
      simpl. f_equal. by apply (Hin id cb).
    + intros id Hid. rewrite calls_of_app, (calls_of_unsubscribed _ _ _ _ Hid).
      simpl. by apply Hout.
Qed.

Lemma subscribe_spec this cb st sg :
  heap st !! this = Some sg ->
  Signal.subscribe this cb st
  = (Returned (nextSubscriberId_ sg),
     mkState (store st)
       (<[this := mkSignal (value_ sg) (version_ sg)
                    (<[nextSubscriberId_ sg := cb]> (subscribers_ sg))
                    (uint64_add (nextSubscriberId_ sg) 1)]> (heap st))
       (world st) (calls st)).
Proof. intros Hsg. unfold Signal.subscribe, bind, deref, assign, ret. by rewrite Hsg. Qed.

Lemma unsubscribe_spec this id st sg :
  heap st !! this = Some sg ->
  Signal.unsubscribe this id st
  = (Returned tt,
     mkState (store st)
       (<[this := mkSignal (value_ sg) (version_ sg)
                    (delete id (subscribers_ sg)) (nextSubscriberId_ sg)]> (heap st))
       (world st) (calls st)).
Proof. intros Hsg. unfold Signal.unsubscribe, bind, deref, assign. by rewrite Hsg. Qed.

End signal_facts.

(** ** The members of [JSISignalStore] *)

Ltac unfold_store :=
  unfold JSISignalStore.getSignal, JSISignalStore.setSignal, JSISignalStore.hasSignal,
    JSISignalStore.deleteSignal, JSISignalStore.getSignalVersion,
    JSISignalStore.getSignalCount, JSISignalStore.clear,
    JSISignalStore.createSignal, JSISignalStore.generateSignalId,
    Signal.getValue, Signal.getVersion,
    bind, ret, throw, get_store, put_store, deref, make_shared; simpl.

Section store_facts.
Context {W : Type}.
Implicit Types (st : State W) (sg : Signal W).

Lemma getSignal_found st id p sg :
  signals_ (store st) !! id = Some p -> heap st !! p = Some sg ->
  JSISignalStore.getSignal id st = (Returned (value_ sg), st).
Proof. intros Hid Hp. unfold_store. rewrite Hid. simpl. by rewrite Hp. Qed.

Lemma getSignalVersion_found st id p sg :
  signals_ (store st) !! id = Some p -> heap st !! p = Some sg ->
  JSISignalStore.getSignalVersion id st = (Returned (version_ sg), st).
Proof. intros Hid Hp. unfold_store. rewrite Hid. simpl. by rewrite Hp. Qed.

Lemma setSignal_found st id p v :
  signals_ (store st) !! id = Some p ->
  JSISignalStore.setSignal id v st = Signal.setValue p v st.
Proof. intros Hid. unfold JSISignalStore.setSignal, bind, get_store. by rewrite Hid. Qed.

Lemma getSignal_absent st id :
  signals_ (store st) !! id = None ->
  JSISignalStore.getSignal id st = (Thrown (JSISignalStore.NotFound id), st).
Proof. intros Hid. unfold_store. by rewrite Hid. Qed.

Lemma setSignal_absent st id v :
  signals_ (store st) !! id = None ->
  JSISignalStore.setSignal id v st = (Thrown (JSISignalStore.NotFound id), st).
Proof. intros Hid. unfold_store. by rewrite Hid. Qed.

Lemma getSignalVersion_absent st id :
  signals_ (store st) !! id = None ->
  JSISignalStore.getSignalVersion id st = (Thrown (JSISignalStore.NotFound id), st).
Proof. intros Hid. unfold_store. by rewrite Hid. Qed.

Lemma hasSignal_spec st id :
  JSISignalStore.hasSignal id st
  = (Returned (if signals_ (store st) !! id is Some _ then true else false), st).
Proof. unfold_store. by destruct (signals_ (store st) !! id). Qed.

(** What [createSignal] does to the state, spelled out. *)
Lemma createSignal_spec st v now :
  let id := ("sig_" +:+ pretty (nextSignalId_ (store st)) +:+ "_" +:+ pretty now)%string in
  let p := fresh (dom (heap st)) in
  JSISignalStore.createSignal v now st
  = (Returned id,
     mkState (mkStore (<[id := p]> (signals_ (store st)))
                      (uint64_add (nextSignalId_ (store st)) 1))
             (<[p := Signal.new v]> (heap st)) (world st) (calls st)).
Proof. reflexivity. Qed.

(** A run of [setSignal] on a present id is a run of writes to its signal. *)
Lemma writes_via_store id p ws st sg :
  signals_ (store st) !! id = Some p -> heap st !! p = Some sg ->
  for_each ws (JSISignalStore.setSignal id) st = for_each ws (Signal.setValue p) st.
Proof.
  revert st sg. induction ws as [|v ws IH]; intros st sg Hid Hp; [done|].
  simpl. unfold bind. rewrite (setSignal_found _ _ _ _ Hid).
  rewrite (setValue_spec _ _ _ _ Hp).
  apply (IH _ (written sg v)); simpl; [done | apply lookup_insert_eq].
Qed.

(** *** [batchUpdate] *)

Lemma collect_from signals updates (ps : list loc) (vs : list SignalValue.t) :
  foldl (fun '(signalsToUpdate, valuesToSet) '(signalId, value) =>
           match signals !! signalId with
           | Some signal => (signalsToUpdate ++ [signal], valuesToSet ++ [value])
           | None => (signalsToUpdate, valuesToSet)
           end)
        (ps, vs) updates
  = (ps ++ (resolve signals updates).*1, vs ++ (resolve signals updates).*2).
Proof.
  revert ps vs. induction updates as [|[id v] updates IH]; intros ps vs; simpl.
  - by rewrite !app_nil_r.
  - unfold resolve. simpl. destruct (signals !! id) as [p|]; simpl.
    + rewrite IH. unfold resolve. by rewrite <- !app_assoc.
    + apply IH.
Qed.

Lemma collect_spec signals updates :
  JSISignalStore.collect signals updates
  = ((resolve signals updates).*1, (resolve signals updates).*2).
Proof. unfold JSISignalStore.collect. by rewrite collect_from. Qed.

Lemma apply_collected_from (ps0 ps : list loc) (vs0 vs : list SignalValue.t) st :
  length ps0 = length vs0 -> length ps = length vs ->
  for_each (seq (length ps0) (length ps)) (fun i =>
    match (ps0 ++ ps) !! i, (vs0 ++ vs) !! i with
    | Some signal, Some value => Signal.setValue signal value
    | _, _ => undefined_behaviour
    end) st
  = for_each (zip ps vs) (fun pv => Signal.setValue pv.1 pv.2) st.
Proof.
  revert ps0 vs0 vs st. induction ps as [|p ps IH]; intros ps0 vs0 vs st Hlen0 Hlen.
  - done.
  - destruct vs as [|v vs]; [done|]. simpl in Hlen.
    simpl. unfold bind.
    rewrite list_lookup_middle by done. rewrite list_lookup_middle by done.
    simpl. destruct (Signal.setValue p v st) as [[[]|e|] st1]; try done.
    specialize (IH (ps0 ++ [p]) (vs0 ++ [v]) vs st1).
    rewrite !length_app in IH. simpl in IH.
    rewrite <- !app_assoc in IH. simpl in IH.
    replace (length ps0 + 1)%nat with (S (length ps0)) in IH by lia.
    apply IH; lia.
Qed.

Lemma apply_collected_zip (ps : list loc) (vs : list SignalValue.t) st :
  length ps = length vs ->
  JSISignalStore.apply_collected ps vs st
  = for_each (zip ps vs) (fun pv => Signal.setValue pv.1 pv.2) st.
Proof. intros Hlen. exact (apply_collected_from [] ps [] vs st eq_refl Hlen). Qed.

Lemma batchUpdate_resolved updates st :
  JSISignalStore.batchUpdate updates st
  = for_each (resolve (signals_ (store st)) updates)
             (fun pv => Signal.setValue pv.1 pv.2) st.
Proof.
  unfold JSISignalStore.batchUpdate, bind, get_store. rewrite collect_spec.
  rewrite apply_collected_zip by (by rewrite !length_fmap).
  by rewrite zip_fst_snd.
Qed.

Lemma setValue_store p v st o st' :
  Signal.setValue p v st = (o, st') -> store st' = store st.
Proof.
  destruct (heap st !! p) as [sg|] eqn:Hp.
  - rewrite (setValue_spec _ _ _ _ Hp). by intros [= _ <-].
  - rewrite (setValue_dangling _ _ _ Hp). by intros [= _ <-].
Qed.

(** Phase 2 makes the calls that [setSignal] would make for the found ids. *)
Lemma resolved_as_setSignal signals updates st :
  signals_ (store st) = signals ->
  for_each (resolve signals updates) (fun pv => Signal.setValue pv.1 pv.2) st
  = for_each (found signals updates) (fun u => JSISignalStore.setSignal u.1 u.2) st.
Proof.
  revert st. induction updates as [|[id v] updates IH]; intros st Hst; [done|].
  unfold resolve, found in *. simpl.
  destruct (signals !! id) as [p|] eqn:Hid; simpl.
  - rewrite filter_cons_True by (simpl; rewrite Hid; eauto). simpl.
    unfold bind. rewrite (setSignal_found st id p v) by by rewrite Hst.
    destruct (Signal.setValue p v st) as [[[]|e|] st1] eqn:Hset; try done.
    apply IH. by rewrite (setValue_store _ _ _ _ _ Hset).
  - rewrite filter_cons_False; [by apply IH|].
    simpl. rewrite Hid. by intros [? ?].
Qed.

Lemma writes_to_cons_eq p v pvs : writes_to p ((p, v) :: pvs) = v :: writes_to p pvs.
Proof. unfold writes_to. by rewrite filter_cons_True. Qed.

Lemma writes_to_cons_ne p q v pvs : q <> p -> writes_to p ((q, v) :: pvs) = writes_to p pvs.
Proof. intros Hne. unfold writes_to. by rewrite filter_cons_False. Qed.

(** A run of writes to live signals: each signal ends as after its own writes. *)
Lemma resolved_writes_spec (pvs : list (loc * SignalValue.t)) st :
  (forall pv, pv ∈ pvs -> is_Some (heap st !! pv.1)) ->
  exists st',
    for_each pvs (fun pv => Signal.setValue pv.1 pv.2) st = (Returned tt, st')
    /\ store st' = store st
    /\ forall p, heap st' !! p
                 = (fun sg => after_writes sg (writes_to p pvs)) <$> heap st !! p.
Proof.
  revert st. induction pvs as [|[q v] pvs IH]; intros st Hlive.
  - exists st. split; [done|]. split; [done|]. intros p. simpl.
    by destruct (heap st !! p).
  - destruct (Hlive (q, v)) as [sgq Hq]; [by left|]. simpl in Hq.
    pose proof (setValue_spec q v st sgq Hq) as Hstep.
    set (st1 := notified _ _ _ _) in Hstep.
    destruct (IH st1) as (st' & Hrun & Hstore & Hheap).
    { intros pv Hpv. subst st1. simpl. apply lookup_insert_is_Some'.
      right. apply Hlive. by right. }
    exists st'. split; [|split].
    + by rewrite (for_each_cons_returned
                    (fun pv => Signal.setValue pv.1 pv.2) (q, v) pvs st st1 Hstep).
    + by rewrite Hstore.
    + intros p. rewrite Hheap. subst st1. simpl.
      destruct (decide (q = p)) as [->|Hne].
      * rewrite lookup_insert_eq, Hq, writes_to_cons_eq. done.
      * rewrite lookup_insert_ne by done. by rewrite writes_to_cons_ne.
Qed.

Lemma resolve_cons_found signals id v updates p :
  signals !! id = Some p ->
  resolve signals ((id, v) :: updates) = (p, v) :: resolve signals updates.
Proof. intros Hid. unfold resolve. simpl. by rewrite Hid. Qed.

Lemma resolve_cons_unknown signals id v updates :
  signals !! id = None ->
  resolve signals ((id, v) :: updates) = resolve signals updates.
Proof. intros Hid. unfold resolve. simpl. by rewrite Hid. Qed.

Lemma values_for_cons_eq id v updates :
  values_for id ((id, v) :: updates) = v :: values_for id updates.
Proof. unfold values_for. by rewrite filter_cons_True. Qed.

Lemma values_for_cons_ne id id' v updates :
  id' <> id -> values_for id ((id', v) :: updates) = values_for id updates.
Proof. intros Hne. unfold values_for. by rewrite filter_cons_False. Qed.

Lemma writes_to_resolve signals updates id p :
  (forall id', signals !! id' = Some p -> id' = id) ->
  signals !! id = Some p ->
  writes_to p (resolve signals updates) = values_for id updates.
Proof.
  intros Hinj Hid. induction updates as [|[id' v] updates IH]; [done|].
  destruct (decide (id' = id)) as [->|Hne].
  - by rewrite (resolve_cons_found _ _ _ _ _ Hid), writes_to_cons_eq,
      values_for_cons_eq, IH.
  - rewrite values_for_cons_ne by done.
    destruct (signals !! id') as [q|] eqn:Hid'.
    + rewrite (resolve_cons_found _ _ _ _ _ Hid'), writes_to_cons_ne; [done|].
      intros ->. by apply Hne, Hinj.
    + by rewrite (resolve_cons_unknown _ _ _ _ Hid').
Qed.

Lemma resolve_live st updates :
  store_wf st ->
  forall pv, pv ∈ resolve (signals_ (store st)) updates -> is_Some (heap st !! pv.1).
Proof.
  intros [Hlive _] pv Hpv. unfold resolve in Hpv.
  apply list_elem_of_omap in Hpv as ([id v] & _ & Hpv). simpl in Hpv.
  destruct (signals_ (store st) !! id) as [p|] eqn:Hid; simplify_eq/=.
  by apply (Hlive id).
Qed.

(** *** Well-formedness is kept by every request *)

Lemma initial_state_wf (w : W) : store_wf (initial_state w).
Proof. split; intros *; simpl; by rewrite lookup_empty. Qed.

Lemma store_wf_heap_insert st p sg' :
  store_wf st -> is_Some (heap st !! p) ->
  store_wf (mkState (store st) (<[p := sg']> (heap st)) (world st) (calls st)).
Proof.
  intros [Hlive Hinj] Hp. split; simpl; [|done].
  intros id q Hid. apply lookup_insert_is_Some'. right. by apply (Hlive id).
Qed.

Lemma store_wf_same_pointers st st' :
  store st' = store st ->
  (forall p, is_Some (heap st !! p) -> is_Some (heap st' !! p)) ->
  store_wf st -> store_wf st'.
Proof.
  intros Hstore Hheap [Hlive Hinj]. unfold store_wf. rewrite Hstore. split; [|done].
  intros id p Hid. by apply Hheap, (Hlive id).
Qed.

Lemma createSignal_wf st v now id st' :
  store_wf st -> JSISignalStore.createSignal v now st = (Returned id, st') -> store_wf st'.
Proof.
  intros [Hlive Hinj]. rewrite createSignal_spec. intros [= <- <-].
  set (p := fresh (dom (heap st))).
  assert (heap st !! p = None) as Hfresh.
  { apply not_elem_of_dom. apply is_fresh. }
  split; simpl.
  - intros id q Hid. apply lookup_insert_is_Some'.
    apply lookup_insert_Some in Hid as [[_ <-]|[_ Hid]]; [by left|].
    right. by apply (Hlive id).
  - intros id1 id2 q H1 H2.
    apply lookup_insert_Some in H1 as [[<- <-]|[Hne1 H1]];
      apply lookup_insert_Some in H2 as [[<- Hq]|[Hne2 H2]]; try done.
    + destruct (Hlive _ _ H2) as [? ?]. congruence.
    + subst q. destruct (Hlive _ _ H1) as [? ?]. congruence.
    + by apply (Hinj id1 id2 q).
Qed.

Lemma deleteSignal_wf st id :
  store_wf st ->
  store_wf (mkState (mkStore (delete id (signals_ (store st))) (nextSignalId_ (store st)))
                    (heap st) (world st) (calls st)).
Proof.
  intros [Hlive Hinj]. split; simpl.
  - intros id' p Hid. apply lookup_delete_Some in Hid as [_ Hid]. by apply (Hlive id').
  - intros id1 id2 p H1 H2.
    apply lookup_delete_Some in H1 as [_ H1]. apply lookup_delete_Some in H2 as [_ H2].
    by apply (Hinj id1 id2 p).
Qed.

Lemma setSignal_wf st id v o st' :
  store_wf st -> JSISignalStore.setSignal id v st = (o, st') -> store_wf st'.
Proof.
  intros Hwf. destruct (signals_ (store st) !! id) as [p|] eqn:Hid.
  - destruct (proj1 Hwf _ _ Hid) as [sg Hp].
    rewrite (setSignal_found _ _ _ _ Hid), (setValue_spec _ _ _ _ Hp).
    intros [= _ <-]. apply (store_wf_same_pointers st); [done| |done].
    intros q Hq. simpl. apply lookup_insert_is_Some'. by right.
  - rewrite (setSignal_absent _ _ _ Hid). by intros [= _ <-].
Qed.

Lemma batchUpdate_wf st updates o st' :
  store_wf st -> JSISignalStore.batchUpdate updates st = (o, st') -> store_wf st'.
Proof.
  intros Hwf. rewrite batchUpdate_resolved.
  destruct (resolved_writes_spec _ st (resolve_live st updates Hwf))
    as (st1 & -> & Hstore & Hheap).
  intros [= _ <-]. apply (store_wf_same_pointers st); [done| |done].
  intros q [sg Hq]. rewrite Hheap, Hq. by eexists.
Qed.

Lemma getSignal_state st id o st' :
  JSISignalStore.getSignal id st = (o, st') -> st' = st.
Proof.
  unfold_store. destruct (signals_ (store st) !! id) as [p|]; simpl.
  - destruct (heap st !! p); by intros [= _ <-].
  - by intros [= _ <-].
Qed.

Lemma getSignalVersion_state st id o st' :
  JSISignalStore.getSignalVersion id st = (o, st') -> st' = st.
Proof.
  unfold_store. destruct (signals_ (store st) !! id) as [p|]; simpl.
  - destruct (heap st !! p); by intros [= _ <-].
  - by intros [= _ <-].
Qed.

Lemma perform_wf st r o st' :
  store_wf st -> perform r st = (o, st') -> store_wf st'.
Proof.
  intros Hwf. destruct r as [v now|id|id v|id|id|id|updates| |]; simpl; unfold bind.
  - destruct (JSISignalStore.createSignal v now st) as [[id|e|] st1] eqn:Hc;
      rewrite createSignal_spec in Hc; try done.
    rewrite <- createSignal_spec in Hc. intros [= _ <-]. by eapply createSignal_wf.
  - destruct (JSISignalStore.getSignal id st) as [[x|e|] st1] eqn:Hg;
      apply getSignal_state in Hg as ->; by intros [= _ <-].
  - destruct (JSISignalStore.setSignal id v st) as [[x|e|] st1] eqn:Hs;
      apply setSignal_wf in Hs; try done; by intros [= _ <-].
  - rewrite hasSignal_spec. by intros [= _ <-].
  - unfold_store. intros [= _ <-]. by apply deleteSignal_wf.
  - destruct (JSISignalStore.getSignalVersion id st) as [[x|e|] st1] eqn:Hg;
      apply getSignalVersion_state in Hg as ->; by intros [= _ <-].
  - destruct (JSISignalStore.batchUpdate updates st) as [[x|e|] st1] eqn:Hb;
      apply batchUpdate_wf in Hb; try done; by intros [= _ <-].
  - unfold_store. by intros [= _ <-].
  - unfold_store. intros [= _ <-]. split; intros *; simpl; by rewrite lookup_empty.
Qed.

Lemma serve_wf rs st :
  store_wf st -> store_wf (serve rs st).2.
Proof.
  revert st. induction rs as [|r rs IH]; intros st Hwf; [done|].
  simpl. destruct (perform r st) as [o st1] eqn:Hr.
  specialize (IH st1 (perform_wf _ _ _ _ Hwf Hr)).
  by destruct (serve rs st1).
Qed.

(** *** What a request can throw *)

Lemma resolved_writes_no_throw (pvs : list (loc * SignalValue.t)) st e st' :
  for_each pvs (fun pv => Signal.setValue pv.1 pv.2) st <> (Thrown e, st').
Proof.
  revert st. induction pvs as [|[q v] pvs IH]; intros st; [done|].
  simpl. unfold bind. destruct (heap st !! q) as [sg|] eqn:Hq.
  - rewrite (setValue_spec _ _ _ _ Hq). apply IH.
  - by rewrite (setValue_dangling _ _ _ Hq).
Qed.

Lemma perform_thrown st r e st' :
  perform r st = (Thrown e, st') ->
  exists id,
    e = JSISignalStore.NotFound id
    /\ signals_ (store st) !! id = None
    /\ st' = st
    /\ (r = GetSignal id \/ (exists v, r = SetSignal id v) \/ r = GetSignalVersion id).
Proof.
  destruct r as [v now|id|id v|id|id|id|updates| |]; simpl; unfold bind.
  - by rewrite createSignal_spec.
  - destruct (signals_ (store st) !! id) as [p|] eqn:Hid.
    + unfold_store. rewrite Hid. simpl. by destruct (heap st !! p).
    + rewrite (getSignal_absent _ _ Hid). intros [= <- <-]. exists id. eauto 10.
  - destruct (signals_ (store st) !! id) as [p|] eqn:Hid.
    + rewrite (setSignal_found _ _ _ _ Hid). destruct (heap st !! p) as [sg|] eqn:Hp.
      * by rewrite (setValue_spec _ _ _ _ Hp).
      * by rewrite (setValue_dangling _ _ _ Hp).
    + rewrite (setSignal_absent _ _ _ Hid). intros [= <- <-]. exists id. eauto 10.
  - by rewrite hasSignal_spec.
  - done.
  - destruct (signals_ (store st) !! id) as [p|] eqn:Hid.
    + unfold_store. rewrite Hid. simpl. by destruct (heap st !! p).
    + rewrite (getSignalVersion_absent _ _ Hid). intros [= <- <-]. exists id. eauto 10.
  - rewrite batchUpdate_resolved.
    destruct (for_each _ _ st) as [[[]|e'|] st1] eqn:Hb; try done.
    by apply resolved_writes_no_throw in Hb.
  - done.
  - done.
Qed.

End store_facts.

(** ** Signal ids *)

Lemma pretty_N_char_no_underscore x : pretty_N_char x <> "_"%char.
Proof. unfold pretty_N_char. by repeat case_match. Qed.

Lemma pretty_N_go_no_underscore x s :
  no_underscore s -> no_underscore (pretty_N_go x s).
Proof.
  revert s. induction (N.lt_wf_0 x) as [x _ IH]; intros s Hs.
  assert (x = 0 \/ 0 < x)%N as [->|Hpos] by lia.
  - by rewrite pretty_N_go_0.
  - rewrite pretty_N_go_step by done. apply IH.
    + by apply N.div_lt.
    + split; [apply pretty_N_char_no_underscore|done].
Qed.

Lemma pretty_counter_no_underscore (c : Z) : 0 <= c -> no_underscore (pretty c).
Proof.
  intros Hc. destruct c as [|q|q]; [by compute| |lia].
  unfold pretty, pretty_Z, pretty, pretty_positive, pretty, pretty_N.
  case_decide; [done|]. by apply pretty_N_go_no_underscore.
Qed.

Lemma append_underscore_inj a b x y :
  no_underscore a -> no_underscore b ->
  a +:+ "_" +:+ x = b +:+ "_" +:+ y -> a = b.
Proof.
  revert b. induction a as [|c a IH]; intros [|d b]; simpl.
  - done.
  - intros _ [Hd _] [= <-]. done.
  - intros [Hc _] _ [= ->]. done.
  - intros [_ Ha] [_ Hb] [= -> Heq]. f_equal. by apply IH.
Qed.

(** The id text determines the counter value it was made from. *)
Lemma signal_id_counter_inj (c1 c2 now1 now2 : Z) :
  0 <= c1 -> 0 <= c2 ->
  "sig_" +:+ pretty c1 +:+ "_" +:+ pretty now1
  = "sig_" +:+ pretty c2 +:+ "_" +:+ pretty now2 ->
  c1 = c2.
Proof.
  intros H1 H2 [= Heq].
  apply append_underscore_inj in Heq; [|by apply pretty_counter_no_underscore..].
  by apply (inj pretty).
Qed.

Section id_facts.
Context {W : Type}.
Implicit Types (st : State W).

Lemma resolved_writes_store (pvs : list (loc * SignalValue.t)) st o st' :
  for_each pvs (fun pv => Signal.setValue pv.1 pv.2) st = (o, st') ->
  store st' = store st.
Proof.
  revert st. induction pvs as [|[q v] pvs IH]; intros st; simpl.
  - by intros [= _ <-].
  - unfold bind. destruct (Signal.setValue q v st) as [[[]|e|] st1] eqn:Hset;
      apply setValue_store in Hset.
    + intros Hrest. apply IH in Hrest. congruence.
    + intros [= _ <-]. done.
    + intros [= _ <-]. done.
Qed.

Lemma setSignal_store st id v o st' :
  JSISignalStore.setSignal id v st = (o, st') -> store st' = store st.
Proof.
  destruct (signals_ (store st) !! id) as [p|] eqn:Hid.
  - rewrite (setSignal_found _ _ _ _ Hid). apply setValue_store.
  - rewrite (setSignal_absent _ _ _ Hid). by intros [= _ <-].
Qed.

(** Only [createSignal] moves the id counter or returns an id. *)
Lemma perform_other st r o st' :
  is_create r = false -> perform r st = (o, st') ->
  nextSignalId_ (store st') = nextSignalId_ (store st)
  /\ created_ids [o] = [].
Proof.
  destruct r as [v now|id|id v|id|id|id|updates| |]; intros Hr; try done;
    simpl; unfold bind.
  - destruct (JSISignalStore.getSignal id st) as [[x|e|] st1] eqn:Hg;
      apply getSignal_state in Hg as ->; by intros [= <- <-].
  - destruct (JSISignalStore.setSignal id v st) as [[x|e|] st1] eqn:Hs;
      apply setSignal_store in Hs; intros [= <- <-]; by rewrite Hs.
  - rewrite hasSignal_spec. by intros [= <- <-].
  - unfold_store. by intros [= <- <-].
  - destruct (JSISignalStore.getSignalVersion id st) as [[x|e|] st1] eqn:Hg;
      apply getSignalVersion_state in Hg as ->; by intros [= <- <-].
  - destruct (JSISignalStore.batchUpdate updates st) as [[x|e|] st1] eqn:Hb;
      rewrite batchUpdate_resolved in Hb; apply resolved_writes_store in Hb;
      intros [= <- <-]; by rewrite Hb.
  - unfold_store. by intros [= <- <-].
  - unfold_store. by intros [= <- <-].
Qed.

Lemma perform_create st v now :
  exists st',
    perform (CreateSignal v now) st
    = (Returned (SignalId ("sig_" +:+ pretty (nextSignalId_ (store st))
                           +:+ "_" +:+ pretty now)), st')
    /\ nextSignalId_ (store st') = uint64_add (nextSignalId_ (store st)) 1.
Proof. eexists. simpl. unfold bind. rewrite createSignal_spec. done. Qed.

Lemma serve_cons r rs st o st1 os st2 :
  perform r st = (o, st1) -> serve rs st1 = (os, st2) ->
  serve (r :: rs) st = (o :: os, st2).
Proof. intros Hr Hrs. simpl. by rewrite Hr, Hrs. Qed.

Lemma created_ids_cons o os : created_ids (o :: os) = created_ids [o] ++ created_ids os.
Proof. unfold created_ids. simpl. by destruct o as [[]| |]. Qed.

Lemma creations_cons r rs :
  creations (r :: rs) = ((if is_create r then 1 else 0) + creations rs)%nat.
Proof.
  unfold creations. destruct (is_create r) eqn:Hr.
  - by rewrite filter_cons_True.
  - rewrite filter_cons_False; [done|]. by rewrite Hr.
Qed.

(** The ids handed out while serving [rs] are made from the counter values
    [c, c+1, ...], one each, as long as the counter does not wrap. *)
Lemma serve_created_ids rs st :
  0 <= nextSignalId_ (store st) ->
  nextSignalId_ (store st) + Z.of_nat (creations rs) <= UINT64_MODULUS ->
  NoDup (created_ids (serve rs st).1)
  /\ Forall (fun id => exists k now : Z,
               nextSignalId_ (store st) <= k
               < nextSignalId_ (store st) + Z.of_nat (creations rs)
               /\ id = "sig_" +:+ pretty k +:+ "_" +:+ pretty now)
            (created_ids (serve rs st).1).
Proof.
  revert st. induction rs as [|r rs IH]; intros st H0 Hroom.
  - simpl. split; constructor.
  - rewrite creations_cons in *.
    destruct (perform r st) as [o st1] eqn:Hr.
    destruct (serve rs st1) as [os st2] eqn:Hrs.
    rewrite (serve_cons _ _ _ _ _ _ _ Hr Hrs). cbn [fst].
    rewrite created_ids_cons.
    destruct (is_create r) eqn:Hc.
    + destruct r as [v now| | | | | | | |]; try done.
      destruct (perform_create st v now) as (st1' & Hr' & Hnext).
      rewrite Hr in Hr'. injection Hr' as -> <-.
      assert (nextSignalId_ (store st) + 1 < UINT64_MODULUS
              \/ nextSignalId_ (store st) + 1 = UINT64_MODULUS) as [Hlt|Heq] by lia.
      * rewrite uint64_add_no_wrap in Hnext by lia.
        destruct (IH st1) as [Hnd Hall]; [lia|lia|].
        rewrite Hrs in Hnd, Hall. simpl in Hnd, Hall. rewrite Hnext in Hall.
        split.
        -- simpl. apply NoDup_cons. split; [|done].
           intros Hin. rewrite Forall_forall in Hall.
           destruct (Hall _ Hin) as (k & now' & Hk & Heq).
           apply signal_id_counter_inj in Heq; lia.
        -- simpl. constructor.
           ++ exists (nextSignalId_ (store st)), now. split; [lia|done].
           ++ eapply Forall_impl; [exact Hall|]. simpl.
              intros id (k & now' & Hk & ->). exists k, now'. split; [lia|done].
      * assert (creations rs = 0%nat) as Hnone by lia.
        assert (nextSignalId_ (store st1) = 0) as Hzero.
        { rewrite Hnext. unfold uint64_add, uint64_wrap. rewrite Heq.
          apply Z_mod_same_full. }
        destruct (IH st1) as [_ Hall]; [lia|lia|].
        rewrite Hrs, Hnone, Hzero in Hall. simpl in Hall.
        destruct (created_ids os) as [|id ids].
        -- simpl. split; [apply NoDup_singleton|].
           constructor; [|constructor].
           exists (nextSignalId_ (store st)), now. split; [lia|done].
        -- apply Forall_cons in Hall as [(k & ? & ? & _) _]. lia.
    + destruct (perform_other _ _ _ _ Hc Hr) as [Hnext ->]. simpl.
      specialize (IH st1). rewrite Hrs, Hnext in IH. simpl in IH.
      apply IH; lia.
Qed.

Lemma serve_counter rs st :
  0 <= nextSignalId_ (store st) ->
  nextSignalId_ (store st) + Z.of_nat (creations rs) < UINT64_MODULUS ->
  nextSignalId_ (store (serve rs st).2)
  = nextSignalId_ (store st) + Z.of_nat (creations rs).
Proof.
  revert st. induction rs as [|r rs IH]; intros st H0 Hroom.
  - unfold creations. simpl. lia.
  - rewrite creations_cons in *.
    destruct (perform r st) as [o st1] eqn:Hr.
    specialize (IH st1).
    destruct (serve rs st1) as [os st2] eqn:Hrs.
    rewrite (serve_cons _ _ _ _ _ _ _ Hr Hrs). cbn [snd] in *.
    destruct (is_create r) eqn:Hc.
    + destruct r as [v now| | | | | | | |]; try done.
      destruct (perform_create st v now) as (st1' & Hr' & Hnext).
      rewrite Hr in Hr'. injection Hr' as -> <-.
      rewrite uint64_add_no_wrap in Hnext by lia.
      rewrite IH; lia.
    + destruct (perform_other _ _ _ _ Hc Hr) as [Hnext _].
      rewrite IH; lia.
Qed.

End id_facts.

(** * The claims *)

(** C9: [toJSI] is defined on all six kinds; what it returns for each is
    fixed by the kind alone, an [Object]-kind value comes back as the
    string of its stored text and never as a structured object, so the
    round trip through the store keeps primitives and flattens objects. *)
Theorem toJSI_total (v : SignalValue.t) :
  SignalValue.toJSI v =
    match SignalValue.getType v with
    | SignalValue.Undefined => jsi.undefined
    | SignalValue.Null => jsi.null
    | SignalValue.Boolean => jsi.Bool (SignalValue.asBoolean v)
    | SignalValue.Number => jsi.Number (SignalValue.asNumber v)
    | SignalValue.String | SignalValue.Object => jsi.String (SignalValue.asString v)
    end
  /\ (SignalValue.getType v = SignalValue.Object ->
      SignalValue.toJSI v = jsi.String (SignalValue.stringValue_ v))
  /\ jsi.isObject (SignalValue.toJSI v) = false
  /\ (forall j, SignalValue.toJSI (SignalValue.of_jsi j)
                = match j with jsi.Object text => jsi.String text | _ => j end).
Proof.
  split; [|split; [|split]].
  - unfold SignalValue.toJSI, SignalValue.getType. by destruct (SignalValue.type_ v).
  - unfold SignalValue.toJSI, SignalValue.getType. by intros ->.
  - unfold SignalValue.toJSI. by destruct (SignalValue.type_ v).
  - by intros [].
Qed.

(** C10: every constructor of [SignalValue] sets all payload members, so on
    any value the class can hold an accessor that does not match the kind
    returns a fixed default: [asBoolean] gives [false] unless the kind is
    Boolean, [asNumber] gives [0.0] unless it is Number, and [asString]
    gives the empty string unless it is String or Object. *)
Theorem accessors_default (v : SignalValue.t) :
  SignalValue.constructed v ->
  (SignalValue.getType v <> SignalValue.Boolean -> SignalValue.asBoolean v = false)
  /\ (SignalValue.getType v <> SignalValue.Number -> SignalValue.asNumber v = 0%float)
  /\ (SignalValue.getType v <> SignalValue.String ->
      SignalValue.getType v <> SignalValue.Object -> SignalValue.asString v = "").
Proof.
  intros Hv. destruct Hv as [ | b | d | s | j ]; try destruct j;
    (split; [|split]); simpl; intros; done.
Qed.

Lemma accessors_default_witness :
  SignalValue.constructed (SignalValue.of_double 42%float)
  /\ SignalValue.asBoolean (SignalValue.of_double 42%float) = false
  /\ SignalValue.asString (SignalValue.of_double 42%float) = "".
Proof.
  split; [constructor|].
  destruct (accessors_default (SignalValue.of_double 42%float)) as (Hb & _ & Hs).
  - constructor.
  - split; [apply Hb | apply Hs]; discriminate.
Defined.

(** C2: for every initial value, [createSignal] returns an id under which
    the store then reports the signal as present, with that value and with
    version 0. *)
Theorem createSignal_then_read {W} (st : State W) (v : SignalValue.t) (now : Z) :
  exists id st',
    JSISignalStore.createSignal v now st = (Returned id, st')
    /\ JSISignalStore.hasSignal id st' = (Returned true, st')
    /\ JSISignalStore.getSignal id st' = (Returned v, st')
    /\ JSISignalStore.getSignalVersion id st' = (Returned 0, st').
Proof.
  eexists _, _. split; [apply createSignal_spec|].
  split; [|split].
  - unfold_store. by rewrite lookup_insert_eq.
  - eapply (getSignal_found _ _ _ (Signal.new v)); simpl; apply lookup_insert_eq.
  - eapply (getSignalVersion_found _ _ _ (Signal.new v)); simpl; apply lookup_insert_eq.
Qed.

(** C7: [deleteSignal] returns normally for every id; afterwards [hasSignal]
    answers false and [getSignal] throws NotFound for that id; for an id
    that was not in the store the call changes nothing. *)
Theorem deleteSignal_then_absent {W} (st : State W) (id : string) :
  exists st',
    JSISignalStore.deleteSignal id st = (Returned tt, st')
    /\ JSISignalStore.hasSignal id st' = (Returned false, st')
    /\ JSISignalStore.getSignal id st' = (Thrown (JSISignalStore.NotFound id), st')
    /\ (signals_ (store st) !! id = None -> st' = st).
Proof.
  eexists. split; [reflexivity|]. split; [|split].
  - unfold_store. by rewrite lookup_delete_eq.
  - apply getSignal_absent. simpl. apply lookup_delete_eq.
  - intros Hid. rewrite delete_id by done. destruct st as [[? ?] ? ? ?]. done.
Qed.


(** C1: on a signal that is in the store, a run of writes through
    [setSignal] succeeds write by write.  After the first k writes the
    version read back is the version before plus k in 64-bit arithmetic,
    which is that sum itself as long as the counter has room: from the
    version 0 a signal is created with, exactly k, one more with every
    write and never less than before.  The value read back is the k-th
    value written. *)
Theorem sequential_writes {W} (st : State W) (id : string) (p : loc)
    (sg : Signal W) (ws : list SignalValue.t) :
  signals_ (store st) !! id = Some p ->
  heap st !! p = Some sg ->
  forall k, (k <= length ws)%nat ->
    exists stk n,
      for_each (take k ws) (JSISignalStore.setSignal id) st = (Returned tt, stk)
      /\ JSISignalStore.getSignalVersion id stk = (Returned n, stk)
      /\ uint64_wrap n = uint64_wrap (version_ sg + Z.of_nat k)
      /\ (0 <= version_ sg -> version_ sg + Z.of_nat k < UINT64_MODULUS ->
          n = version_ sg + Z.of_nat k)
      /\ (forall v, last (take k ws) = Some v ->
                    JSISignalStore.getSignal id stk = (Returned v, stk)).
Proof.
  intros Hid Hp k Hk.
  destruct (writes_spec p (take k ws) st sg Hp)
    as (stk & log & Hrun & Hstore & Hheap & _).
  assert (signals_ (store stk) !! id = Some p) as Hid' by by rewrite Hstore.
  assert (heap stk !! p = Some (after_writes sg (take k ws))) as Hp'.
  { rewrite Hheap. apply lookup_insert_eq. }
  assert (length (take k ws) = k) as Hlen by (rewrite length_take; lia).
  exists stk, (version_ (after_writes sg (take k ws))).
  split; [|split; [|split; [|split]]].
  - by rewrite (writes_via_store _ _ _ _ _ Hid Hp).
  - apply (getSignalVersion_found _ _ _ _ Hid' Hp').
  - by rewrite after_writes_version_wrap, Hlen.
  - intros H0 Hroom. rewrite after_writes_version; rewrite ?Hlen; lia.
  - intros v Hlast. rewrite (getSignal_found _ _ _ _ Hid' Hp').
    by rewrite (after_writes_value _ _ _ Hlast).
Qed.

(** C3: in a well-formed store, [getSignal], [setSignal] and
    [getSignalVersion] throw NotFound exactly when the id is absent and
    return normally when it is present, for any value; [createSignal] and
    [hasSignal] always return normally; whatever a request to the store
    throws is the NotFound of an id that is absent, thrown by one of the
    three lookups for that very id; and the message of NotFound determines
    the id. *)
Theorem store_raises_only_NotFound {W} (st : State W) (id : string) (v : SignalValue.t) :
  store_wf st ->
  (signals_ (store st) !! id = None ->
     JSISignalStore.getSignal id st = (Thrown (JSISignalStore.NotFound id), st)
     /\ JSISignalStore.setSignal id v st = (Thrown (JSISignalStore.NotFound id), st)
     /\ JSISignalStore.getSignalVersion id st = (Thrown (JSISignalStore.NotFound id), st))
  /\ (is_Some (signals_ (store st) !! id) ->
     (exists x, JSISignalStore.getSignal id st = (Returned x, st))
     /\ (exists st', JSISignalStore.setSignal id v st = (Returned tt, st'))
     /\ (exists n, JSISignalStore.getSignalVersion id st = (Returned n, st)))
  /\ (forall now, exists id' st',
        JSISignalStore.createSignal v now st = (Returned id', st'))
  /\ (exists b, JSISignalStore.hasSignal id st = (Returned b, st))
  /\ (forall r e st', perform r st = (Thrown e, st') ->
        exists missing,
          e = JSISignalStore.NotFound missing
          /\ signals_ (store st) !! missing = None
          /\ (r = GetSignal missing \/ (exists x, r = SetSignal missing x)
              \/ r = GetSignalVersion missing))
  /\ (forall id1 id2,
        JSISignalStore.NotFound id1 = JSISignalStore.NotFound id2 -> id1 = id2)
  /\ JSISignalStore.NotFound id = runtime_error ("Signal not found: " +:+ id).
Proof.
  intros Hwf. split; [|split; [|split; [|split; [|split; [|split]]]]].
  - intros Hid. by rewrite getSignal_absent, setSignal_absent, getSignalVersion_absent.
  - intros [p Hid]. destruct (proj1 Hwf _ _ Hid) as [sg Hp].
    split; [|split].
    + eexists. by apply (getSignal_found _ _ p sg).
    + eexists. rewrite (setSignal_found _ _ _ _ Hid). by apply setValue_spec.
    + eexists. by apply (getSignalVersion_found _ _ p sg).
  - intros now. eexists _, _. apply createSignal_spec.
  - eexists. apply hasSignal_spec.
  - intros r e st' Hr. apply perform_thrown in Hr as (missing & ? & ? & _ & ?). eauto.
  - intros id1 id2 [= H]. done.
  - done.
Qed.

(** C4: in a well-formed store [batchUpdate] returns normally for every
    list of pairs.  It does what [setSignal] does, in order, for the pairs
    whose id is in the store at the start, and nothing for the others; the
    registry itself is unchanged.  So each signal of the store ends as after
    the writes of the values the batch holds for its id: its version has
    gone up by one per such pair and its value is the last of them (it is
    untouched if there is none). *)
Theorem batchUpdate_applies_found {W} (st : State W)
    (updates : list (string * SignalValue.t)) :
  store_wf st ->
  exists st',
    JSISignalStore.batchUpdate updates st = (Returned tt, st')
    /\ for_each (found (signals_ (store st)) updates)
                (fun u => JSISignalStore.setSignal u.1 u.2) st = (Returned tt, st')
    /\ store st' = store st
    /\ (forall id p sg,
          signals_ (store st) !! id = Some p -> heap st !! p = Some sg ->
          exists sg',
            heap st' !! p = Some sg'
            /\ sg' = after_writes sg (values_for id updates)
            /\ uint64_wrap (version_ sg')
               = uint64_wrap (version_ sg + Z.of_nat (length (values_for id updates)))
            /\ (0 <= version_ sg ->
                version_ sg + Z.of_nat (length (values_for id updates)) < UINT64_MODULUS ->
                version_ sg' = version_ sg + Z.of_nat (length (values_for id updates)))
            /\ (forall v, last (values_for id updates) = Some v -> value_ sg' = v)
            /\ (values_for id updates = [] -> sg' = sg)
            /\ subscribers_ sg' = subscribers_ sg).
Proof.
  intros Hwf.
  destruct (resolved_writes_spec _ st (resolve_live st updates Hwf))
    as (st' & Hrun & Hstore & Hheap).
  exists st'. split; [|split; [|split]].
  - by rewrite batchUpdate_resolved.
  - by rewrite <- resolved_as_setSignal.
  - done.
  - intros id p sg Hid Hp. eexists. split; [|split; [reflexivity|]].
    + rewrite Hheap, Hp. simpl.
      rewrite (writes_to_resolve _ _ id); [done| |done].
      intros id' Hid'. by apply (proj2 Hwf id' id p).
    + split; [apply after_writes_version_wrap|].
      split; [apply after_writes_version|].
      split; [apply after_writes_value|].
      split; [by intros ->|apply after_writes_subscribers].
Qed.

(** C8: over a run of the process, from start-up and through any requests
    (deletions and [clear] included), no two calls of [createSignal] return
    the same id, as long as fewer than 2^64 signals are created: the counter
    goes up by one with each creation and by nothing else, so it equals the
    number of creations so far and no value of it is used twice. *)
Theorem created_ids_distinct {W} (w : W) (rs : list request) :
  Z.of_nat (creations rs) < UINT64_MODULUS ->
  NoDup (created_ids (serve rs (initial_state w)).1)
  /\ nextSignalId_ (store (serve rs (initial_state w)).2) = Z.of_nat (creations rs)
  /\ (forall rs1 rs2, rs = rs1 ++ rs2 ->
        nextSignalId_ (store (serve rs1 (initial_state w)).2) = Z.of_nat (creations rs1)).
Proof.
  intros Hroom. split; [|split].
  - apply serve_created_ids; simpl; lia.
  - rewrite serve_counter; simpl; lia.
  - intros rs1 rs2 ->. unfold creations in Hroom.
    rewrite filter_app, length_app in Hroom.
    rewrite serve_counter; simpl; unfold creations; lia.
Qed.

(** * The theorems at concrete inputs *)

Lemma sequential_writes_witness :
  exists st3,
    for_each [SignalValue.of_string "hello"; SignalValue.of_bool true;
              SignalValue.of_double 7%float]
             (JSISignalStore.setSignal "sig_0_1700000000") two_signals
    = (Returned tt, st3)
    /\ JSISignalStore.getSignalVersion "sig_0_1700000000" st3 = (Returned 3, st3)
    /\ JSISignalStore.getSignal "sig_0_1700000000" st3
       = (Returned (SignalValue.of_double 7%float), st3).
Proof.
  destruct (sequential_writes two_signals "sig_0_1700000000" 0%N
              (Signal.new (SignalValue.of_double 42%float))
              [SignalValue.of_string "hello"; SignalValue.of_bool true;
               SignalValue.of_double 7%float]
              eq_refl eq_refl 3%nat (le_n 3))
    as (st3 & n & Hrun & Hver & _ & Hn & Hval).
  exists st3. split; [exact Hrun|]. split.
  - rewrite Hver, Hn; [reflexivity|done|done].
  - apply Hval. reflexivity.
Defined.

Lemma store_raises_only_NotFound_witness :
  store_wf two_signals
  /\ JSISignalStore.getSignal "sig_9_0" two_signals
     = (Thrown (runtime_error "Signal not found: sig_9_0"), two_signals)
  /\ exists st', JSISignalStore.setSignal "sig_1_1700000001"
                   (SignalValue.of_string "x") two_signals = (Returned tt, st').
Proof.
  assert (store_wf two_signals) as Hwf by apply serve_wf, initial_state_wf.
  split; [exact Hwf|].
  destruct (store_raises_only_NotFound two_signals "sig_9_0"
              (SignalValue.of_string "x") Hwf) as (Habsent & _).
  destruct (store_raises_only_NotFound two_signals "sig_1_1700000001"
              (SignalValue.of_string "x") Hwf) as (_ & Hpresent & _).
  split.
  - apply Habsent. reflexivity.
  - apply Hpresent. eexists. reflexivity.
Defined.

Lemma batchUpdate_applies_found_witness :
  store_wf two_signals
  /\ exists st' sgA sgB,
       JSISignalStore.batchUpdate
         [("sig_0_1700000000"%string, SignalValue.of_string "a");
          ("sig_1_1700000001"%string, SignalValue.of_string "b");
          ("sig_7_0"%string, SignalValue.of_string "x")] two_signals
       = (Returned tt, st')
       /\ heap st' !! 0%N = Some sgA /\ heap st' !! 1%N = Some sgB
       /\ version_ sgA = 1 /\ value_ sgA = SignalValue.of_string "a"
       /\ version_ sgB = 1 /\ value_ sgB = SignalValue.of_string "b".
Proof.
  assert (store_wf two_signals) as Hwf by apply serve_wf, initial_state_wf.
  split; [exact Hwf|].
  destruct (batchUpdate_applies_found two_signals
              [("sig_0_1700000000"%string, SignalValue.of_string "a");
               ("sig_1_1700000001"%string, SignalValue.of_string "b");
               ("sig_7_0"%string, SignalValue.of_string "x")] Hwf)
    as (st' & Hrun & _ & _ & Heach).
  destruct (Heach "sig_0_1700000000" 0%N (Signal.new (SignalValue.of_double 42%float))
              eq_refl eq_refl) as (sgA & HA & _ & _ & HverA & HvalA & _).
  destruct (Heach "sig_1_1700000001" 1%N (Signal.new (SignalValue.of_bool false))
              eq_refl eq_refl) as (sgB & HB & _ & _ & HverB & HvalB & _).
  exists st', sgA, sgB. split; [exact Hrun|]. split; [exact HA|]. split; [exact HB|].
  split; [|split; [|split]].
  - rewrite HverA; [reflexivity|done|done].
  - apply HvalA. reflexivity.
  - rewrite HverB; [reflexivity|done|done].
  - apply HvalB. reflexivity.
Defined.


Lemma created_ids_distinct_witness :
  created_ids
    (serve [CreateSignal SignalValue.default 5; DeleteSignal "sig_0_5";
            CreateSignal SignalValue.default 5; Clear;
            CreateSignal SignalValue.default 5] (initial_state tt)).1
  = ["sig_0_5"; "sig_1_5"; "sig_2_5"]
  /\ NoDup (created_ids
       (serve [CreateSignal SignalValue.default 5; DeleteSignal "sig_0_5";
               CreateSignal SignalValue.default 5; Clear;
               CreateSignal SignalValue.default 5] (initial_state tt)).1).
Proof.
  split; [reflexivity|].
  apply (created_ids_distinct tt
           [CreateSignal SignalValue.default 5; DeleteSignal "sig_0_5";
            CreateSignal SignalValue.default 5; Clear;
            CreateSignal SignalValue.default 5]).
  reflexivity.
Defined.

(** * Further properties of the code *)

(** ** Reads, [clear] and the frame of each store operation *)

Section frame_facts.
Context {W : Type}.
Implicit Types (st : State W) (sg : Signal W).

Lemma answer_getSignal st id :
  answer (JSISignalStore.getSignal id) st
  = match signals_ (store st) !! id with
    | None => Thrown (JSISignalStore.NotFound id)
    | Some p => match heap st !! p with
                | Some sg => Returned (value_ sg)
                | None => Undefined_behaviour
                end
    end.
Proof.
  unfold answer. unfold_store.
  destruct (signals_ (store st) !! id) as [p|]; simpl; [|done].
  by destruct (heap st !! p).
Qed.

Lemma answer_getSignalVersion st id :
  answer (JSISignalStore.getSignalVersion id) st
  = match signals_ (store st) !! id with
    | None => Thrown (JSISignalStore.NotFound id)
    | Some p => match heap st !! p with
                | Some sg => Returned (version_ sg)
                | None => Undefined_behaviour
                end
    end.
Proof.
  unfold answer. unfold_store.
  destruct (signals_ (store st) !! id) as [p|]; simpl; [|done].
  by destruct (heap st !! p).
Qed.

Lemma answer_hasSignal st id :
  answer (JSISignalStore.hasSignal id) st
  = Returned (if signals_ (store st) !! id is Some _ then true else false).
Proof. unfold answer. by rewrite hasSignal_spec. Qed.

Lemma answer_getSignalCount st :
  answer JSISignalStore.getSignalCount st
  = Returned (Z.of_nat (size (signals_ (store st)))).
Proof. done. Qed.

(** The answers about [id] depend on its entry and on the signal it points to. *)
Lemma answers_same st st' id :
  signals_ (store st') !! id = signals_ (store st) !! id ->
  (forall p, signals_ (store st) !! id = Some p -> heap st' !! p = heap st !! p) ->
  answer (JSISignalStore.getSignal id) st' = answer (JSISignalStore.getSignal id) st
  /\ answer (JSISignalStore.getSignalVersion id) st'
     = answer (JSISignalStore.getSignalVersion id) st
  /\ answer (JSISignalStore.hasSignal id) st' = answer (JSISignalStore.hasSignal id) st.
Proof.
  intros Hid Hp.
  rewrite !answer_getSignal, !answer_getSignalVersion, !answer_hasSignal, Hid.
  destruct (signals_ (store st) !! id) as [p|]; [|done].
  by rewrite (Hp p eq_refl).
Qed.

Lemma for_each_app {A} (body : A -> M W unit) l1 l2 st :
  for_each (l1 ++ l2) body st = (for_each l1 body ;; for_each l2 body) st.
Proof.
  revert st. induction l1 as [|x l1 IH]; intros st; [done|].
  simpl. unfold bind in *. destruct (body x st) as [[[]|e|] st1]; done.
Qed.

End frame_facts.

(** X1: [getSignal], [getSignalVersion], [hasSignal] and [getSignalCount]
    never change the process state, whether they return or throw. *)
Theorem reads_keep_state {W} (st : State W) (id : string) :
  (JSISignalStore.getSignal id st).2 = st
  /\ (JSISignalStore.getSignalVersion id st).2 = st
  /\ (JSISignalStore.hasSignal id st).2 = st
  /\ (JSISignalStore.getSignalCount st).2 = st.
Proof.
  split; [|split; [|split]].
  - destruct (JSISignalStore.getSignal id st) as [o st'] eqn:H.
    by apply getSignal_state in H.
  - destruct (JSISignalStore.getSignalVersion id st) as [o st'] eqn:H.
    by apply getSignalVersion_state in H.
  - by rewrite hasSignal_spec.
  - done.
Qed.

(** X2: [clear] always returns; afterwards the store counts no signal, every
    id is absent for [hasSignal] and for the three lookups, and the id
    counter is where it was, so ids handed out before are not handed out
    again. *)
Theorem clear_empties_store {W} (st : State W) :
  exists st',
    JSISignalStore.clear st = (Returned tt, st')
    /\ JSISignalStore.getSignalCount st' = (Returned 0, st')
    /\ (forall id v,
          JSISignalStore.hasSignal id st' = (Returned false, st')
          /\ JSISignalStore.getSignal id st' = (Thrown (JSISignalStore.NotFound id), st')
          /\ JSISignalStore.setSignal id v st' = (Thrown (JSISignalStore.NotFound id), st')
          /\ JSISignalStore.getSignalVersion id st'
             = (Thrown (JSISignalStore.NotFound id), st'))
    /\ nextSignalId_ (store st') = nextSignalId_ (store st)
    /\ (forall v now id st'',
          JSISignalStore.createSignal v now st' = (Returned id, st'') ->
          id = "sig_" +:+ pretty (nextSignalId_ (store st)) +:+ "_" +:+ pretty now).
Proof.
  eexists. split; [reflexivity|]. split; [reflexivity|].
  split; [|split; [reflexivity|]].
  - intros id v. split; [|split; [|split]].
    + unfold_store. by rewrite lookup_empty.
    + apply getSignal_absent. apply lookup_empty.
    + apply setSignal_absent. apply lookup_empty.
    + apply getSignalVersion_absent. apply lookup_empty.
  - intros v now id st''. rewrite createSignal_spec. by intros [= <- _].
Qed.

(** X3: a write to one id, whether it succeeds or throws, leaves what the
    store answers about every other id (value, version, presence) and the
    number of signals as they were. *)
Theorem setSignal_frame {W} (st st' : State W) (id : string) (v : SignalValue.t)
    (o : outcome unit) :
  store_wf st ->
  JSISignalStore.setSignal id v st = (o, st') ->
  (forall other, other <> id ->
     answer (JSISignalStore.getSignal other) st'
     = answer (JSISignalStore.getSignal other) st
     /\ answer (JSISignalStore.getSignalVersion other) st'
        = answer (JSISignalStore.getSignalVersion other) st)
  /\ (forall any, answer (JSISignalStore.hasSignal any) st'
                  = answer (JSISignalStore.hasSignal any) st)
  /\ answer JSISignalStore.getSignalCount st' = answer JSISignalStore.getSignalCount st.
Proof.
  intros Hwf Hset.
  pose proof (setSignal_store _ _ _ _ _ Hset) as Hstore.
  split; [|split].
  - intros other Hne.
    assert (forall p, signals_ (store st) !! other = Some p -> heap st' !! p = heap st !! p)
      as Hheap.
    { intros q Hq. destruct (signals_ (store st) !! id) as [p|] eqn:Hid.
      - destruct (proj1 Hwf _ _ Hid) as [sg Hp].
        rewrite (setSignal_found _ _ _ _ Hid), (setValue_spec _ _ _ _ Hp) in Hset.
        injection Hset as _ <-. simpl. apply lookup_insert_ne.
        intros ->. apply Hne. by apply (proj2 Hwf other id q).
      - rewrite (setSignal_absent _ _ _ Hid) in Hset. by injection Hset as _ <-. }
    destruct (answers_same st st' other) as (? & ? & _); [by rewrite Hstore|done|done].
  - intros any. by rewrite !answer_hasSignal, Hstore.
  - by rewrite !answer_getSignalCount, Hstore.
Qed.

(** X4: [createSignal] leaves what the store answers about every id other
    than the one it returns as it was. *)
Theorem createSignal_frame {W} (st st' : State W) (v : SignalValue.t) (now : Z)
    (id : string) :
  store_wf st ->
  JSISignalStore.createSignal v now st = (Returned id, st') ->
  forall other, other <> id ->
    answer (JSISignalStore.getSignal other) st'
    = answer (JSISignalStore.getSignal other) st
    /\ answer (JSISignalStore.getSignalVersion other) st'
       = answer (JSISignalStore.getSignalVersion other) st
    /\ answer (JSISignalStore.hasSignal other) st'
       = answer (JSISignalStore.hasSignal other) st.
Proof.
  intros Hwf. rewrite createSignal_spec. intros [= <- <-] other Hne.
  apply answers_same; simpl.
  - by apply lookup_insert_ne.
  - intros q Hq. apply lookup_insert_ne. intros Heq.
    destruct (proj1 Hwf _ _ Hq) as [sg Hsg].
    assert (heap st !! fresh (dom (heap st)) = None) as Hfresh.
    { apply not_elem_of_dom. apply is_fresh. }
    congruence.
Qed.

(** X5: [deleteSignal] leaves what the store answers about every other id
    as it was, and lowers the number of signals by one when the id was
    present and by nothing when it was not. *)
Theorem deleteSignal_frame {W} (st : State W) (id : string) :
  exists st',
    JSISignalStore.deleteSignal id st = (Returned tt, st')
    /\ (forall other, other <> id ->
          answer (JSISignalStore.getSignal other) st'
          = answer (JSISignalStore.getSignal other) st
          /\ answer (JSISignalStore.getSignalVersion other) st'
             = answer (JSISignalStore.getSignalVersion other) st
          /\ answer (JSISignalStore.hasSignal other) st'
             = answer (JSISignalStore.hasSignal other) st)
    /\ exists n,
         answer JSISignalStore.getSignalCount st = Returned n
         /\ answer JSISignalStore.getSignalCount st'
            = Returned (n - (if signals_ (store st) !! id is Some _ then 1 else 0)).
Proof.
  eexists. split; [reflexivity|]. split.
  - intros other Hne. apply answers_same; simpl; [|done].
    by apply lookup_delete_ne.
  - eexists. split; [reflexivity|]. rewrite answer_getSignalCount. simpl.
    f_equal. rewrite map_size_delete.
    destruct (signals_ (store st) !! id) as [p|] eqn:Hid; simpl; [|lia].
    assert (size (signals_ (store st)) <> 0%nat); [|lia].
    apply map_size_non_empty_iff. intros Hempty. by rewrite Hempty, lookup_empty in Hid.
Qed.

(** ** Invariants of a running store *)

Section reachable_facts.
Context {W : Type}.
Implicit Types (st : State W) (sg : Signal W).

Lemma perform_other_signals st r o st' :
  is_create r = false -> perform r st = (o, st') ->
  forall id p, signals_ (store st') !! id = Some p -> signals_ (store st) !! id = Some p.
Proof.
  destruct r as [v now|id|id v|id|id|id|updates| |]; intros Hr; try done;
    simpl; unfold bind.
  - destruct (JSISignalStore.getSignal id st) as [[x|e|] st1] eqn:Hg;
      apply getSignal_state in Hg as ->; by intros [= _ <-].
  - destruct (JSISignalStore.setSignal id v st) as [[x|e|] st1] eqn:Hs;
      apply setSignal_store in Hs; intros [= _ <-]; by rewrite Hs.
  - rewrite hasSignal_spec. by intros [= _ <-].
  - unfold_store. intros [= _ <-] id' p. simpl. rewrite lookup_delete_Some. by intros [_ ?].
  - destruct (JSISignalStore.getSignalVersion id st) as [[x|e|] st1] eqn:Hg;
      apply getSignalVersion_state in Hg as ->; by intros [= _ <-].
  - destruct (JSISignalStore.batchUpdate updates st) as [[x|e|] st1] eqn:Hb;
      rewrite batchUpdate_resolved in Hb; apply resolved_writes_store in Hb;
      intros [= _ <-]; by rewrite Hb.
  - unfold_store. by intros [= _ <-].
  - unfold_store. intros [= _ <-] id' p. simpl. by rewrite lookup_empty.
Qed.

Lemma serve_ids_below rs st :
  0 <= nextSignalId_ (store st) ->
  nextSignalId_ (store st) + Z.of_nat (creations rs) < UINT64_MODULUS ->
  ids_below st -> ids_below (serve rs st).2.
Proof.
  revert st. induction rs as [|r rs IH]; intros st H0 Hroom Hst; [done|].
  rewrite creations_cons in Hroom.
  destruct (perform r st) as [o st1] eqn:Hr.
  specialize (IH st1).
  destruct (serve rs st1) as [os st2] eqn:Hrs.
  rewrite (serve_cons _ _ _ _ _ _ _ Hr Hrs). cbn [snd] in *.
  destruct (is_create r) eqn:Hc.
  - destruct r as [v now| | | | | | | |]; try done.
    destruct (perform_create st v now) as (st1' & Hr' & Hnext).
    rewrite Hr in Hr'. injection Hr' as _ <-.
    rewrite uint64_add_no_wrap in Hnext by lia.
    apply IH; [lia|lia|].
    simpl in Hr. unfold bind in Hr. rewrite createSignal_spec in Hr.
    injection Hr as _ <-. unfold ids_below. cbn [store signals_ nextSignalId_].
    rewrite uint64_add_no_wrap by lia. intros id p.
    rewrite lookup_insert_Some. intros [[<- _]|[_ Hid]].
    + exists (nextSignalId_ (store st)), now. split; [lia|done].
    + destruct (Hst id p Hid) as (k & now' & Hk & ->).
      exists k, now'. split; [lia|done].
  - destruct (perform_other _ _ _ _ Hc Hr) as [Hnext _].
    apply IH; [lia|lia|].
    intros id p Hid. rewrite Hnext.
    by apply (Hst id p), (perform_other_signals _ _ _ _ Hc Hr).
Qed.

Lemma uint64_add_1_ne (v : Z) : uint64_add v 1 <> v.
Proof.
  unfold uint64_add, uint64_wrap, UINT64_MODULUS. intros H.
  pose proof (Z.mod_pos_bound (v + 1) (2 ^ 64) eq_refl) as Hb.
  rewrite H in Hb.
  assert (v + 1 < 2 ^ 64 \/ v + 1 = 2 ^ 64) as [Hlt|Heq] by lia.
  - rewrite Z.mod_small in H by lia. lia.
  - rewrite Heq, Z_mod_same_full in H. lia.
Qed.

Lemma setValue_quiet st p v o st' :
  no_subscribers st -> Signal.setValue p v st = (o, st') ->
  no_subscribers st' /\ world st' = world st /\ calls st' = calls st.
Proof.
  intros Hq. destruct (heap st !! p) as [sg|] eqn:Hp.
  - rewrite (setValue_spec _ _ _ _ Hp), (Hq _ _ Hp), map_to_list_empty.
    intros [= _ <-]. simpl. rewrite app_nil_r. split; [|done].
    intros q sg'. simpl. rewrite lookup_insert_Some.
    intros [[_ <-]|[_ Hq']]; [by apply (Hq p sg)|by apply (Hq q)].
  - rewrite (setValue_dangling _ _ _ Hp). by intros [= _ <-].
Qed.

Lemma resolved_writes_quiet (pvs : list (loc * SignalValue.t)) st o st' :
  no_subscribers st ->
  for_each pvs (fun pv => Signal.setValue pv.1 pv.2) st = (o, st') ->
  no_subscribers st' /\ world st' = world st /\ calls st' = calls st.
Proof.
  revert st. induction pvs as [|[q v] pvs IH]; intros st Hq; simpl.
  - by intros [= _ <-].
  - unfold bind. destruct (Signal.setValue q v st) as [[[]|e|] st1] eqn:Hset;
      destruct (setValue_quiet _ _ _ _ _ Hq Hset) as (Hq1 & Hw1 & Hc1).
    + intros Hrest. destruct (IH _ Hq1 Hrest) as (? & ? & ?).
      split; [done|]. split; congruence.
    + by intros [= _ <-].
    + by intros [= _ <-].
Qed.

Lemma perform_quiet st r o st' :
  no_subscribers st -> perform r st = (o, st') ->
  no_subscribers st' /\ world st' = world st /\ calls st' = calls st.
Proof.
  intros Hq. destruct r as [v now|id|id v|id|id|id|updates| |]; simpl; unfold bind.
  - rewrite createSignal_spec. intros [= _ <-]. split; [|done].
    intros q sg'. simpl. rewrite lookup_insert_Some.
    intros [[_ <-]|[_ Hq']]; [done|by apply (Hq q)].
  - destruct (JSISignalStore.getSignal id st) as [[x|e|] st1] eqn:Hg;
      apply getSignal_state in Hg as ->; by intros [= _ <-].
  - destruct (signals_ (store st) !! id) as [p|] eqn:Hid.
    + rewrite (setSignal_found _ _ _ _ Hid).
      destruct (Signal.setValue p v st) as [[x|e|] st1] eqn:Hs;
        apply (setValue_quiet _ _ _ _ _ Hq) in Hs; by intros [= _ <-].
    + rewrite (setSignal_absent _ _ _ Hid). by intros [= _ <-].
  - rewrite hasSignal_spec. by intros [= _ <-].
  - unfold_store. by intros [= _ <-].
  - destruct (JSISignalStore.getSignalVersion id st) as [[x|e|] st1] eqn:Hg;
      apply getSignalVersion_state in Hg as ->; by intros [= _ <-].
  - rewrite batchUpdate_resolved.
    destruct (for_each _ _ st) as [[x|e|] st1] eqn:Hb;
      apply (resolved_writes_quiet _ _ _ _ Hq) in Hb; by intros [= _ <-].
  - unfold_store. by intros [= _ <-].
  - unfold_store. by intros [= _ <-].
Qed.

Lemma serve_quiet rs st :
  no_subscribers st ->
  no_subscribers (serve rs st).2
  /\ world (serve rs st).2 = world st /\ calls (serve rs st).2 = calls st.
Proof.
  revert st. induction rs as [|r rs IH]; intros st Hq; [done|].
  destruct (perform r st) as [o st1] eqn:Hr.
  destruct (perform_quiet _ _ _ _ Hq Hr) as (Hq1 & Hw1 & Hc1).
  specialize (IH st1 Hq1).
  destruct (serve rs st1) as [os st2] eqn:Hrs.
  rewrite (serve_cons _ _ _ _ _ _ _ Hr Hrs). cbn [snd] in *.
  destruct IH as (? & ? & ?). split; [done|]. split; congruence.
Qed.

Lemma resolve_app signals (u1 u2 : list (string * SignalValue.t)) :
  resolve signals (u1 ++ u2) = resolve signals u1 ++ resolve signals u2.
Proof. unfold resolve. apply omap_app. Qed.

Lemma resolve_unknown signals (updates : list (string * SignalValue.t)) :
  (forall u, u ∈ updates -> signals !! u.1 = None) -> resolve signals updates = [].
Proof.
  induction updates as [|[id v] updates IH]; intros Hall; [done|].
  rewrite resolve_cons_unknown.
  - apply IH. intros u Hu. apply Hall. by right.
  - apply (Hall (id, v)). by left.
Qed.

End reachable_facts.

(** X6: in a store run from start-up with fewer than 2^64 creations,
    [createSignal] never lands on an id that is in the store: the id it
    returns was absent before the call, and the number of signals goes up
    by exactly one. *)
Theorem createSignal_adds_one {W} (w : W) (rs : list request)
    (v : SignalValue.t) (now : Z) :
  Z.of_nat (creations rs) < UINT64_MODULUS ->
  exists id st' n,
    JSISignalStore.createSignal v now (serve rs (initial_state w)).2 = (Returned id, st')
    /\ answer (JSISignalStore.hasSignal id) (serve rs (initial_state w)).2 = Returned false
    /\ answer JSISignalStore.getSignalCount (serve rs (initial_state w)).2 = Returned n
    /\ answer JSISignalStore.getSignalCount st' = Returned (n + 1).
Proof.
  intros Hroom.
  set (st := (serve rs (initial_state w)).2).
  assert (ids_below st) as Hbelow.
  { apply serve_ids_below; [simpl; lia|simpl; lia|].
    intros id p Hid. simpl in Hid. first [done | by rewrite lookup_empty in Hid]. }
  assert (nextSignalId_ (store st) = Z.of_nat (creations rs)) as Hnext.
  { unfold st. rewrite serve_counter; simpl; lia. }
  set (id := "sig_" +:+ pretty (nextSignalId_ (store st)) +:+ "_" +:+ pretty now).
  assert (signals_ (store st) !! id = None) as Hfresh.
  { destruct (signals_ (store st) !! id) as [p|] eqn:Hid; [|done].
    destruct (Hbelow id p Hid) as (k & now' & Hk & Heq).
    apply signal_id_counter_inj in Heq; lia. }
  eexists _, _, _. split; [apply createSignal_spec|].
  split; [|split; [reflexivity|]].
  - rewrite answer_hasSignal. fold id. by rewrite Hfresh.
  - rewrite answer_getSignalCount. simpl. fold id.
    rewrite map_size_insert_None by done. f_equal. lia.
Qed.

(** X7: a write is never a no-op: [setSignal] with the very value the
    signal already holds succeeds, leaves a version different from the one
    before, and still runs every registered subscriber once on that value:
    the world is what running the registry's callbacks, in some order,
    leaves, and the calls logged are those. *)
Theorem rewrite_same_value {W} (st : State W) (id : string) (p : loc) (sg : Signal W) :
  signals_ (store st) !! id = Some p ->
  heap st !! p = Some sg ->
  exists st' n order,
    JSISignalStore.setSignal id (value_ sg) st = (Returned tt, st')
    /\ JSISignalStore.getSignal id st' = (Returned (value_ sg), st')
    /\ JSISignalStore.getSignalVersion id st' = (Returned n, st')
    /\ n <> version_ sg
    /\ order ≡ₚ map_to_list (subscribers_ sg)
    /\ new_calls st st' = (fun x => Call p x.1 (value_ sg)) <$> order
    /\ world st' = run_callbacks order (value_ sg) (world st)
    /\ (forall sid cb, subscribers_ sg !! sid = Some cb ->
                       calls_of p sid (new_calls st st') = [value_ sg]).
Proof.
  intros Hid Hp. eexists _, _, (map_to_list (subscribers_ sg)).
  split; [rewrite (setSignal_found _ _ _ _ Hid); by apply setValue_spec|].
  split; [|split; [|split; [|split; [|split; [|split]]]]].
  - eapply (getSignal_found _ _ p (written sg (value_ sg))); simpl;
      [done|apply lookup_insert_eq].
  - eapply (getSignalVersion_found _ _ p (written sg (value_ sg))); simpl;
      [done|apply lookup_insert_eq].
  - simpl. apply uint64_add_1_ne.
  - done.
  - by erewrite new_calls_app; [|simpl; reflexivity].
  - done.
  - intros sid cb Hsid. erewrite new_calls_app; [|simpl; reflexivity].
    by apply (calls_of_subscribed _ _ _ _ cb).
Qed.

(** X8: requests to the store never run a subscriber callback: whatever is
    served from start-up, no signal of the store has a subscriber, the
    subscribers' world is untouched and the call log stays empty. *)
Theorem store_requests_invoke_nothing {W} (w : W) (rs : list request) :
  no_subscribers (serve rs (initial_state w)).2
  /\ world (serve rs (initial_state w)).2 = w
  /\ calls (serve rs (initial_state w)).2 = [].
Proof.
  apply (serve_quiet rs (initial_state w)).
  intros p sg. simpl. by rewrite lookup_empty.
Qed.

(** X9: a batch can be split anywhere: [batchUpdate] on a concatenation
    does what the two batches do one after the other, outcome and state. *)
Theorem batchUpdate_app {W} (st : State W) (u1 u2 : list (string * SignalValue.t)) :
  JSISignalStore.batchUpdate (u1 ++ u2) st
  = (JSISignalStore.batchUpdate u1 ;; JSISignalStore.batchUpdate u2) st.
Proof.
  rewrite batchUpdate_resolved, resolve_app, for_each_app.
  unfold bind. rewrite batchUpdate_resolved.
  destruct (for_each (resolve (signals_ (store st)) u1) _ st) as [[[]|e|] st1] eqn:H1;
    [|done|done].
  rewrite batchUpdate_resolved. by rewrite (resolved_writes_store _ _ _ _ H1).
Qed.

(** X10: a batch that names only ids the store does not hold (the empty
    batch included) returns normally and changes nothing, where [setSignal]
    on any of those ids throws. *)
Theorem batchUpdate_unknown_only {W} (st : State W)
    (updates : list (string * SignalValue.t)) :
  (forall u, u ∈ updates -> signals_ (store st) !! u.1 = None) ->
  JSISignalStore.batchUpdate updates st = (Returned tt, st)
  /\ (forall u, u ∈ updates ->
        JSISignalStore.setSignal u.1 u.2 st
        = (Thrown (JSISignalStore.NotFound u.1), st)).
Proof.
  intros Hall. split.
  - by rewrite batchUpdate_resolved, resolve_unknown.
  - intros u Hu. apply setSignal_absent. by apply Hall.
Qed.

(** ** Subscription ids *)

Section subscription_facts.
Context {W : Type}.
Implicit Types (st : State W) (sg : Signal W).

Lemma subscriptions_cons (c : signal_call W) cs :
  subscriptions (c :: cs) = ((if is_subscribe c then 1 else 0) + subscriptions cs)%nat.
Proof.
  unfold subscriptions. destruct (is_subscribe c) eqn:Hc.
  - by rewrite filter_cons_True.
  - rewrite filter_cons_False; [done|]. by rewrite Hc.
Qed.

Lemma signal_serve_cons this (c : signal_call W) cs st o st1 os st2 :
  signal_perform this c st = (o, st1) -> signal_serve this cs st1 = (os, st2) ->
  signal_serve this (c :: cs) st = (o :: os, st2).
Proof. intros Hc Hcs. simpl. by rewrite Hc, Hcs. Qed.

Lemma subscribed_ids_cons o os :
  subscribed_ids (o :: os) = subscribed_ids [o] ++ subscribed_ids os.
Proof. unfold subscribed_ids. simpl. by destruct o as [[]| |]. Qed.

(** What one call does to the object it is made on. *)
Lemma signal_perform_spec this (c : signal_call W) st sg :
  heap st !! this = Some sg ->
  exists o st' sg',
    signal_perform this c st = (o, st')
    /\ heap st' !! this = Some sg'
    /\ (if is_subscribe c
        then o = Returned (Subscription (nextSubscriberId_ sg))
             /\ nextSubscriberId_ sg' = uint64_add (nextSubscriberId_ sg) 1
        else subscribed_ids [o] = []
             /\ nextSubscriberId_ sg' = nextSubscriberId_ sg).
Proof.
  intros Hsg. destruct c as [|v| |cb|id]; simpl; unfold bind.
  - unfold Signal.getValue, bind, deref, ret. rewrite Hsg. by eexists _, _, _.
  - rewrite (setValue_spec _ _ _ _ Hsg). eexists _, _, _. split; [done|].
    split; [simpl; apply lookup_insert_eq|done].
  - unfold Signal.getVersion, bind, deref, ret. rewrite Hsg. by eexists _, _, _.
  - rewrite (subscribe_spec _ _ _ _ Hsg). eexists _, _, _. split; [done|].
    split; [simpl; apply lookup_insert_eq|done].
  - rewrite (unsubscribe_spec _ _ _ _ Hsg). eexists _, _, _. split; [done|].
    split; [simpl; apply lookup_insert_eq|done].
Qed.

Lemma signal_serve_ids this (cs : list (signal_call W)) st sg :
  heap st !! this = Some sg ->
  0 <= nextSubscriberId_ sg ->
  nextSubscriberId_ sg + Z.of_nat (subscriptions cs) <= UINT64_MODULUS ->
  subscribed_ids (signal_serve this cs st).1
  = seqZ (nextSubscriberId_ sg) (Z.of_nat (subscriptions cs)).
Proof.
  revert st sg. induction cs as [|c cs IH]; intros st sg Hsg H0 Hroom; [done|].
  rewrite subscriptions_cons in *.
  destruct (signal_perform_spec this c st sg Hsg) as (o & st1 & sg1 & Hc & Hsg1 & Hkind).
  destruct (signal_serve this cs st1) as [os st2] eqn:Hcs.
  rewrite (signal_serve_cons _ _ _ _ _ _ _ _ Hc Hcs). cbn [fst].
  rewrite subscribed_ids_cons.
  specialize (IH st1 sg1 Hsg1). rewrite Hcs in IH. cbn [fst] in IH.
  destruct (is_subscribe c).
  - destruct Hkind as [-> Hnext].
    replace (Z.of_nat (1 + subscriptions cs)) with (Z.succ (Z.of_nat (subscriptions cs)))
      by lia.
    rewrite seqZ_cons by lia. rewrite Z.pred_succ. simpl. f_equal.
    assert (nextSubscriberId_ sg + 1 < UINT64_MODULUS
            \/ nextSubscriberId_ sg + 1 = UINT64_MODULUS) as [Hlt|Heq] by lia.
    + rewrite uint64_add_no_wrap in Hnext by lia.
      rewrite IH; rewrite Hnext; [done|lia|lia].
    + assert (subscriptions cs = 0%nat) as Hnone by lia.
      assert (nextSubscriberId_ sg1 = 0) as Hzero.
      { rewrite Hnext. unfold uint64_add, uint64_wrap. rewrite Heq.
        apply Z_mod_same_full. }
      rewrite Hnone in *. rewrite IH; rewrite ?Hzero; [done|lia|simpl; lia].
  - destruct Hkind as [-> Hnext]. simpl.
    rewrite IH; rewrite Hnext; [done|lia|lia].
Qed.

End subscription_facts.


(** X12: when every registered subscription id is below the signal's
    counter (true of a new signal, and kept by writes, by [unsubscribe] and
    by [subscribe] itself) and the counter has room, [subscribe] returns an
    id that is not registered, registers the callback under it and keeps
    every other subscriber; value and version are not touched. *)
Theorem subscribe_keeps_subscribers {W} (st : State W) (this : loc) (sg : Signal W)
    (cb : callback W) :
  heap st !! this = Some sg ->
  subscriptions_below sg ->
  nextSubscriberId_ sg + 1 < UINT64_MODULUS ->
  exists st' sg',
    Signal.subscribe this cb st = (Returned (nextSubscriberId_ sg), st')
    /\ heap st' !! this = Some sg'
    /\ subscribers_ sg !! nextSubscriberId_ sg = None
    /\ subscribers_ sg' !! nextSubscriberId_ sg = Some cb
    /\ (forall id, id <> nextSubscriberId_ sg ->
                   subscribers_ sg' !! id = subscribers_ sg !! id)
    /\ size (subscribers_ sg') = S (size (subscribers_ sg))
    /\ value_ sg' = value_ sg /\ version_ sg' = version_ sg
    /\ subscriptions_below sg'
    /\ (forall v, subscriptions_below (written sg v))
    /\ (forall id, subscriptions_below
                     (mkSignal (value_ sg) (version_ sg) (delete id (subscribers_ sg))
                               (nextSubscriberId_ sg)))
    /\ (forall v0, subscriptions_below (@Signal.new W v0)).
Proof.
  intros Hsg [H0 Hbelow] Hroom.
  assert (subscribers_ sg !! nextSubscriberId_ sg = None) as Hfree.
  { destruct (subscribers_ sg !! nextSubscriberId_ sg) eqn:Hid; [|done].
    assert (0 <= nextSubscriberId_ sg < nextSubscriberId_ sg); [|lia].
    apply Hbelow. by rewrite Hid. }
  eexists _, _. split; [by apply subscribe_spec|].
  split; [simpl; apply lookup_insert_eq|]. split; [done|]. simpl.
  split; [apply lookup_insert_eq|].
  split; [intros id Hne; by apply lookup_insert_ne|].
  split; [by apply map_size_insert_None|]. split; [done|]. split; [done|].
  split; [|split; [|split]].
  - split; simpl; rewrite uint64_add_no_wrap by lia; [lia|].
    intros id. rewrite lookup_insert_is_Some. intros [<-|[_ Hid]]; [lia|].
    specialize (Hbelow id Hid). lia.
  - intros v. by split.
  - intros id. split; [done|]. simpl. intros id' [x Hid'].
    apply lookup_delete_Some in Hid' as [_ Hid']. apply Hbelow. by rewrite Hid'.
  - intros v0. split; simpl; [lia|]. intros id [x Hid]. by rewrite lookup_empty in Hid.
Qed.

(** ** Values and ids as text *)

Lemma append_inv_head (a x y : string) : a +:+ x = a +:+ y -> x = y.
Proof. induction a as [|c a IH]; simpl; [done|]. intros [= H]. by apply IH. Qed.

Lemma append_underscore_split a b x y :
  no_underscore a -> no_underscore b ->
  a +:+ "_" +:+ x = b +:+ "_" +:+ y -> a = b /\ x = y.
Proof.
  intros Ha Hb Heq. assert (a = b) as -> by by apply (append_underscore_inj a b x y).
  split; [done|]. apply append_inv_head in Heq. by injection Heq.
Qed.

(** X13: converting a stored value out with [toJSI] and back in with the
    JSI constructor gives the same [SignalValue] for every kind but Object;
    an Object-kind value comes back as a String-kind value with the same
    text, so a second trip changes nothing more. *)
Theorem toJSI_then_back (v : SignalValue.t) :
  SignalValue.constructed v ->
  SignalValue.of_jsi (SignalValue.toJSI v)
  = (if decide (SignalValue.getType v = SignalValue.Object)
     then SignalValue.of_string (SignalValue.asString v)
     else v)
  /\ SignalValue.toJSI (SignalValue.of_jsi (SignalValue.toJSI v)) = SignalValue.toJSI v.
Proof. intros Hv. by destruct Hv as [ | b | d | s | [] ]. Qed.

Lemma generateSignalId_spec {W} (st : State W) (now : Z) :
  JSISignalStore.generateSignalId now st
  = (Returned ("sig_" +:+ pretty (nextSignalId_ (store st)) +:+ "_" +:+ pretty now),
     mkState (mkStore (signals_ (store st)) (uint64_add (nextSignalId_ (store st)) 1))
             (heap st) (world st) (calls st)).
Proof. reflexivity. Qed.

(** X14: [generateSignalId] always returns, advances the counter by one in
    64-bit arithmetic and leaves the signals alone; the text it returns
    determines both the counter value and the clock reading it was made
    from. *)
Theorem generateSignalId_injective {W} (st1 st2 : State W) (now1 now2 : Z) :
  0 <= nextSignalId_ (store st1) ->
  0 <= nextSignalId_ (store st2) ->
  exists id1 id2 st1' st2',
    JSISignalStore.generateSignalId now1 st1 = (Returned id1, st1')
    /\ JSISignalStore.generateSignalId now2 st2 = (Returned id2, st2')
    /\ nextSignalId_ (store st1') = uint64_add (nextSignalId_ (store st1)) 1
    /\ signals_ (store st1') = signals_ (store st1) /\ heap st1' = heap st1
    /\ (id1 = id2 <->
        nextSignalId_ (store st1) = nextSignalId_ (store st2) /\ now1 = now2).
Proof.
  intros H1 H2. eexists _, _, _, _.
  split; [apply generateSignalId_spec|]. split; [apply generateSignalId_spec|].
  split; [done|]. split; [done|]. split; [done|]. split.
  - intros [= Heq].
    apply append_underscore_split in Heq as [Hc Hn];
      [|by apply pretty_counter_no_underscore..].
    split; by apply (inj pretty).
  - by intros [-> ->].
Qed.

Lemma c_str_no_nul (s : string) : no_nul s -> c_str s = s.
Proof.
  induction s as [|a s IH]; [done|]. simpl. intros [Ha Hs].
  destruct (Ascii.eqb_spec a "000"%char) as [->|_]; [done|]. by rewrite IH.
Qed.

Lemma no_nul_append (a b : string) : no_nul a -> no_nul b -> no_nul (a +:+ b).
Proof. induction a as [|c a IH]; simpl; [done|]. intros [? ?] ?. split; [done|by apply IH]. Qed.

Lemma pretty_N_char_no_nul x : pretty_N_char x <> "000"%char.
Proof. unfold pretty_N_char. by repeat case_match. Qed.

Lemma pretty_N_go_no_nul x s : no_nul s -> no_nul (pretty_N_go x s).
Proof.
  revert s. induction (N.lt_wf_0 x) as [x _ IH]; intros s Hs.
  assert (x = 0 \/ 0 < x)%N as [->|Hpos] by lia.
  - by rewrite pretty_N_go_0.
  - rewrite pretty_N_go_step by done. apply IH.
    + by apply N.div_lt.
    + split; [apply pretty_N_char_no_nul|done].
Qed.

Lemma pretty_positive_no_nul (q : positive) : no_nul (pretty q).
Proof.
  unfold pretty, pretty_positive, pretty, pretty_N.
  case_decide; [done|]. by apply pretty_N_go_no_nul.
Qed.

Lemma pretty_Z_no_nul (z : Z) : no_nul (pretty z).
Proof.
  destruct z as [|q|q]; [by compute|apply pretty_positive_no_nul|].
  unfold pretty, pretty_Z. split; [done|apply pretty_positive_no_nul].
Qed.

(** A generated id reaches [jsi::JSError] whole. *)
Lemma c_str_signal_id (counter now : Z) :
  c_str ("sig_" +:+ pretty counter +:+ "_" +:+ pretty now)
  = "sig_" +:+ pretty counter +:+ "_" +:+ pretty now.
Proof.
  apply c_str_no_nul. apply (no_nul_append "sig_"); [by compute|].
  apply no_nul_append; [apply pretty_Z_no_nul|].
  apply (no_nul_append "_"); [by compute|apply pretty_Z_no_nul].
Qed.

(** ** The host functions *)

Section binding_facts.
Context {W : Type}.
Implicit Types (st : State W).

Lemma rethrown_getSignal st id :
  bindings.rethrown (JSISignalStore.getSignal id) SignalValue.toJSI st
  = match signals_ (store st) !! id with
    | None => (bindings.JSError ("Signal not found: " +:+ c_str id), st)
    | Some p => match heap st !! p with
                | Some sg => (bindings.Return (SignalValue.toJSI (value_ sg)), st)
                | None => (bindings.Undefined, st)
                end
    end.
Proof.
  unfold bindings.rethrown. unfold_store.
  destruct (signals_ (store st) !! id) as [p|]; simpl; [|done].
  by destruct (heap st !! p).
Qed.

Lemma rethrown_getSignalVersion st id :
  bindings.rethrown (JSISignalStore.getSignalVersion id)
                    (fun version => jsi.Number (double_of_uint64 version)) st
  = match signals_ (store st) !! id with
    | None => (bindings.JSError ("Signal not found: " +:+ c_str id), st)
    | Some p => match heap st !! p with
                | Some sg => (bindings.Return (jsi.Number (double_of_uint64 (version_ sg))), st)
                | None => (bindings.Undefined, st)
                end
    end.
Proof.
  unfold bindings.rethrown. unfold_store.
  destruct (signals_ (store st) !! id) as [p|]; simpl; [|done].
  by destruct (heap st !! p).
Qed.

Lemma rethrown_setSignal st id v :
  bindings.rethrown (JSISignalStore.setSignal id v) (fun _ => jsi.undefined) st
  = match signals_ (store st) !! id with
    | None => (bindings.JSError ("Signal not found: " +:+ c_str id), st)
    | Some p => match heap st !! p with
                | Some sg => (bindings.Return jsi.undefined,
                              (Signal.setValue p v st).2)
                | None => (bindings.Undefined, st)
                end
    end.
Proof.
  unfold bindings.rethrown.
  destruct (signals_ (store st) !! id) as [p|] eqn:Hid.
  - rewrite (setSignal_found _ _ _ _ Hid). destruct (heap st !! p) as [sg|] eqn:Hp.
    + by rewrite (setValue_spec _ _ _ _ Hp).
    + by rewrite (setValue_dangling _ _ _ Hp).
  - by rewrite (setSignal_absent _ _ _ Hid).
Qed.

End binding_facts.

(** X15: each host function checks its argument list before touching the
    store: with too few arguments, or (for all but create) a first argument
    that is not a string, it throws a JSError carrying its own usage message
    and the state stays as it was. *)
Theorem bindings_reject_malformed {W} (st : State W) (f : bindings.invocation)
    (args : list jsi.Value) :
  bindings.well_formed f args = false ->
  bindings.dispatch f args st = (bindings.JSError (bindings.usage f), st).
Proof.
  destruct f; destruct args as [|[] [|? ?]]; simpl; intros H; done.
Qed.

(** X16: on a well-formed store and an argument list that passes the check,
    each of the six host functions create, get, set, has, delete and
    getVersion either returns a value, leaving a well-formed store, or
    throws the JSError whose message is "Signal not found: " followed by the
    id it was given, read as a C string (so up to the id's first NUL); the
    id is then absent, the state unchanged, and the function one of get,
    set and getVersion.  No native exception leaves any of these six. *)
Theorem bindings_fail_only_with_JSError {W} (st : State W) (f : bindings.invocation)
    (args : list jsi.Value) :
  store_wf st ->
  bindings.well_formed f args = true ->
  (exists v st', bindings.dispatch f args st = (bindings.Return v, st') /\ store_wf st')
  \/ (exists id rest,
        args = jsi.String id :: rest
        /\ signals_ (store st) !! id = None
        /\ bindings.dispatch f args st
           = (bindings.JSError ("Signal not found: " +:+ c_str id), st)
        /\ (no_nul id ->
            bindings.dispatch f args st
            = (bindings.JSError ("Signal not found: " +:+ id), st))
        /\ (f = bindings.CallGetSignal \/ f = bindings.CallSetSignal
            \/ f = bindings.CallGetVersion)).
Proof.
  intros Hwf Hargs.
  destruct f as [now| | | | | ]; simpl in *.
  - destruct args as [|j rest]; [done|]. left. simpl.
    unfold bindings.uncaught. rewrite createSignal_spec.
    eexists _, _. split; [done|].
    eapply createSignal_wf; [exact Hwf|apply createSignal_spec].
  - destruct args as [|[| | | |id|] rest]; try done. simpl.
    rewrite rethrown_getSignal.
    destruct (signals_ (store st) !! id) as [p|] eqn:Hid.
    + destruct (proj1 Hwf _ _ Hid) as [sg Hp]. rewrite Hp. left. by eexists _, _.
    + right. exists id, rest. split; [done|]. split; [done|]. split; [done|].
      split; [|eauto]. intros Hid'. by rewrite c_str_no_nul.
  - destruct args as [|[| | | |id|] [|j rest]]; try done. simpl.
    rewrite rethrown_setSignal.
    destruct (signals_ (store st) !! id) as [p|] eqn:Hid.
    + destruct (proj1 Hwf _ _ Hid) as [sg Hp]. rewrite Hp. left.
      eexists _, _. split; [done|].
      apply (setSignal_wf st id (SignalValue.of_jsi j) (Signal.setValue p (SignalValue.of_jsi j) st).1);
        [done|].
      rewrite (setSignal_found _ _ _ _ Hid). by destruct (Signal.setValue _ _ _).
    + right. exists id, (j :: rest). split; [done|]. split; [done|]. split; [done|].
      split; [|eauto]. intros Hid'. by rewrite c_str_no_nul.
  - destruct args as [|[| | | |id|] rest]; try done. simpl. left.
    unfold bindings.uncaught. rewrite hasSignal_spec. by eexists _, _.
  - destruct args as [|[| | | |id|] rest]; try done. simpl. left.
    unfold bindings.uncaught. eexists _, _. split; [reflexivity|].
    by apply deleteSignal_wf.
  - destruct args as [|[| | | |id|] rest]; try done. simpl.
    rewrite rethrown_getSignalVersion.
    destruct (signals_ (store st) !! id) as [p|] eqn:Hid.
    + destruct (proj1 Hwf _ _ Hid) as [sg Hp]. rewrite Hp. left. by eexists _, _.
    + right. exists id, rest. split; [done|]. split; [done|]. split; [done|].
      split; [|eauto]. intros Hid'. by rewrite c_str_no_nul.
Qed.

(** X17: across the boundary, a value survives the store up to flattening:
    after [__signalForgeCreateSignal(j)] the returned id reads back as [j]
    with objects turned into their text, is reported present, and has
    version 0; after [__signalForgeSetSignal(id, j')] it reads back as the
    flattened [j'] with version 1; after [__signalForgeDeleteSignal(id)] it
    is reported absent and reading it throws "Signal not found: <id>". *)
Theorem bindings_round_trip {W} (st : State W) (now : Z) (j j' : jsi.Value)
    (more : list jsi.Value) :
  exists id st1 st2 st3,
    bindings.createSignalFunc now (j :: more) st = (bindings.Return (jsi.String id), st1)
    /\ bindings.getSignalFunc [jsi.String id] st1 = (bindings.Return (flattened j), st1)
    /\ bindings.hasSignalFunc [jsi.String id] st1 = (bindings.Return (jsi.Bool true), st1)
    /\ bindings.getVersionFunc [jsi.String id] st1
       = (bindings.Return (jsi.Number 0%float), st1)
    /\ bindings.setSignalFunc [jsi.String id; j'] st1 = (bindings.Return jsi.undefined, st2)
    /\ bindings.getSignalFunc [jsi.String id] st2 = (bindings.Return (flattened j'), st2)
    /\ bindings.getVersionFunc [jsi.String id] st2
       = (bindings.Return (jsi.Number 1%float), st2)
    /\ bindings.deleteSignalFunc [jsi.String id] st2 = (bindings.Return jsi.undefined, st3)
    /\ bindings.hasSignalFunc [jsi.String id] st3 = (bindings.Return (jsi.Bool false), st3)
    /\ bindings.getSignalFunc [jsi.String id] st3
       = (bindings.JSError ("Signal not found: " +:+ id), st3).
Proof.
  set (id := "sig_" +:+ pretty (nextSignalId_ (store st)) +:+ "_" +:+ pretty now).
  set (p := fresh (dom (heap st))).
  eexists id, _, _, _.
  split. { simpl. unfold bindings.uncaught. by rewrite createSignal_spec. }
  simpl. fold id p.
  split. { rewrite rethrown_getSignal. simpl. rewrite !lookup_insert_eq. by destruct j. }
  split. { unfold bindings.uncaught. rewrite hasSignal_spec. simpl.
           by rewrite lookup_insert_eq. }
  split. { rewrite rethrown_getSignalVersion. simpl. by rewrite !lookup_insert_eq. }
  split. { rewrite rethrown_setSignal. simpl. rewrite !lookup_insert_eq. reflexivity. }
  erewrite setValue_spec; [|simpl; apply lookup_insert_eq]. simpl.
  rewrite map_to_list_empty. simpl.
  split. { rewrite rethrown_getSignal. simpl. rewrite !lookup_insert_eq. by destruct j'. }
  split. { rewrite rethrown_getSignalVersion. simpl. by rewrite !lookup_insert_eq. }
  split. { unfold bindings.uncaught. reflexivity. }
  split. { unfold bindings.uncaught. rewrite hasSignal_spec. simpl.
           by rewrite lookup_delete_eq. }
  pose proof (c_str_signal_id (nextSignalId_ (store st)) now) as Hwhole. fold id in Hwhole.
  rewrite rethrown_getSignal, Hwhole. simpl. by rewrite lookup_delete_eq.
Qed.

(** ** Signals whose subscribers call back *)

Section reentrant_facts.
Context {W : Type}.
Implicit Types (st : Reentrant.State W) (sg : Reentrant.Signal W)
  (h : Reentrant.handler W).

(** What a finished callback body hands back to the notification loop. *)
Definition completed (thrown : option exception) : outcome unit :=
  match thrown with None => Returned tt | Some e => Thrown e end.

Lemma reentrant_state_eta st :
  Reentrant.mkState (Reentrant.heap st) (Reentrant.world st) (Reentrant.calls st) = st.
Proof. by destruct st. Qed.

(** More budget never changes a result. *)
Lemma notify_mono (run1 run2 : Reentrant.handler W -> Reentrant.State W ->
                               option (outcome unit * Reentrant.State W))
    this l v st r :
  (forall h st r, run1 h st = Some r -> run2 h st = Some r) ->
  Reentrant.notify run1 this l v st = Some r ->
  Reentrant.notify run2 this l v st = Some r.
Proof.
  intros Hruns. revert st. induction l as [|[id cb] l IH]; intros st; [done|].
  simpl. unfold Reentrant.deliver.
  destruct (run1 (cb v) _) as [[o st1]|] eqn:H1; [|done].
  rewrite (Hruns _ _ _ H1). destruct o as [[]|e|]; try done; apply IH.
Qed.

Lemma setValue_with_mono (run1 run2 : Reentrant.handler W -> Reentrant.State W ->
                                      option (outcome unit * Reentrant.State W))
    this v st r :
  (forall h st r, run1 h st = Some r -> run2 h st = Some r) ->
  Reentrant.setValue_with run1 this v st = Some r ->
  Reentrant.setValue_with run2 this v st = Some r.
Proof.
  intros Hruns. unfold Reentrant.setValue_with.
  destruct (Reentrant.heap st !! this); [|done]. by apply notify_mono.
Qed.

Lemma run_mono budget : forall budget' h st r,
  (budget <= budget')%nat ->
  Reentrant.run budget h st = Some r -> Reentrant.run budget' h st = Some r.
Proof.
  induction budget as [|budget IH]; intros budget' h st r Hle; [done|].
  destruct budget' as [|budget']; [lia|].
  assert (budget <= budget')%nat as Hle' by lia.
  destruct h as [|e|f next|next|p next|p next|p v next|p cb next|p id next]; simpl;
    try done.
  - by apply IH.
  - by apply IH.
  - destruct (Reentrant.getValue p st) as [[x|e|] st1]; try done. by apply IH.
  - destruct (Reentrant.getVersion p st) as [[x|e|] st1]; try done. by apply IH.
  - destruct (Reentrant.setValue_with (Reentrant.run budget) p v st) as [[o st1]|] eqn:Hset;
      [|done].
    rewrite (setValue_with_mono _ (Reentrant.run budget') _ _ _ _
               (fun h st r => IH budget' h st r Hle') Hset).
    destruct o as [[]|e|]; try done. by apply IH.
  - destruct (Reentrant.subscribe p cb st) as [[x|e|] st1]; try done. by apply IH.
  - destruct (Reentrant.unsubscribe p id st) as [[x|e|] st1]; try done. by apply IH.
Qed.

Lemma setValue_budget_mono budget budget' this v st r :
  (budget <= budget')%nat ->
  Reentrant.setValue budget this v st = Some r ->
  Reentrant.setValue budget' this v st = Some r.
Proof.
  intros Hle. apply setValue_with_mono. intros h st0 r0. by apply run_mono.
Qed.

Lemma writes_budget_mono budget budget' this ws st r :
  (budget <= budget')%nat ->
  Reentrant.writes budget this ws st = Some r ->
  Reentrant.writes budget' this ws st = Some r.
Proof.
  intros Hle. revert st. induction ws as [|v ws IH]; intros st; [done|]. simpl.
  destruct (Reentrant.setValue budget this v st) as [[o st1]|] eqn:Hset; [|done].
  rewrite (setValue_budget_mono _ _ _ _ _ _ Hle Hset).
  destruct o as [[]|e|]; try done. apply IH.
Qed.

(** A quiet callback body runs to its end, given budget enough, and leaves
    the signals and the log as they were. *)
Lemma run_quiet live h :
  Reentrant.quiet live h ->
  forall st, dom (Reentrant.heap st) = live ->
  exists budget0, forall budget, (budget0 <= budget)%nat ->
    Reentrant.run budget h st
    = Some (completed (Reentrant.effect (Reentrant.heap st) h (Reentrant.world st)).1,
            Reentrant.mkState (Reentrant.heap st)
              (Reentrant.effect (Reentrant.heap st) h (Reentrant.world st)).2
              (Reentrant.calls st)).
Proof.
  induction 1 as [|e|f next _ IH|next _ IH|p next Hp _ IH|p next Hp _ IH];
    intros st Hdom.
  - exists 1%nat. intros [|n] Hn; [lia|]. simpl. by rewrite reentrant_state_eta.
  - exists 1%nat. intros [|n] Hn; [lia|]. simpl. by rewrite reentrant_state_eta.
  - destruct (IH (Reentrant.mkState (Reentrant.heap st) (f (Reentrant.world st))
                    (Reentrant.calls st)) Hdom) as [b0 Hb].
    exists (S b0). intros [|n] Hn; [lia|]. simpl. rewrite Hb by lia. done.
  - destruct (IH (Reentrant.world st) st Hdom) as [b0 Hb].
    exists (S b0). intros [|n] Hn; [lia|]. simpl. rewrite Hb by lia. done.
  - rewrite <- Hdom in Hp. apply elem_of_dom in Hp as [sg Hsg].
    destruct (IH (Reentrant.value_ sg) st Hdom) as [b0 Hb].
    exists (S b0). intros [|n] Hn; [lia|]. simpl. unfold Reentrant.getValue.
    rewrite Hsg. rewrite Hb by lia. done.
  - rewrite <- Hdom in Hp. apply elem_of_dom in Hp as [sg Hsg].
    destruct (IH (Reentrant.version_ sg) st Hdom) as [b0 Hb].
    exists (S b0). intros [|n] Hn; [lia|]. simpl. unfold Reentrant.getVersion.
    rewrite Hsg. rewrite Hb by lia. done.
Qed.

Lemma notify_quiet this (l : list (Z * (SignalValue.t -> Reentrant.handler W))) v st :
  (forall x, x ∈ l -> Reentrant.quiet (dom (Reentrant.heap st)) (x.2 v)) ->
  exists budget0, forall budget, (budget0 <= budget)%nat ->
    Reentrant.notify (Reentrant.run budget) this l v st
    = Some (Returned tt,
            Reentrant.mkState (Reentrant.heap st)
              (Reentrant.round (Reentrant.heap st) l v (Reentrant.world st))
              (Reentrant.calls st ++ ((fun x => Call this x.1 v) <$> l))).
Proof.
  revert st. induction l as [|[id cb] l IH]; intros st Hquiet.
  - exists 0%nat. intros budget _. simpl. unfold Reentrant.round. simpl.
    by rewrite app_nil_r, reentrant_state_eta.
  - destruct (run_quiet _ (cb v) (Hquiet (id, cb) ltac:(by left))
                (Reentrant.mkState (Reentrant.heap st) (Reentrant.world st)
                   (Reentrant.calls st ++ [Call this id v])) eq_refl) as [b1 Hb1].
    simpl in Hb1.
    set (w1 := (Reentrant.effect (Reentrant.heap st) (cb v) (Reentrant.world st)).2) in *.
    destruct (IH (Reentrant.mkState (Reentrant.heap st) w1
                    (Reentrant.calls st ++ [Call this id v]))) as [b2 Hb2].
    { intros x Hx. simpl. apply Hquiet. by right. }
    simpl in Hb2.
    exists (max b1 b2). intros budget Hbudget. simpl. unfold Reentrant.deliver.
    rewrite Hb1 by lia.
    destruct (Reentrant.effect (Reentrant.heap st) (cb v) (Reentrant.world st)).1;
      simpl; rewrite Hb2 by lia; by rewrite <- app_assoc.
Qed.

(** One write to a signal with a quiet registry. *)
Lemma setValue_quiet_registry this v st sg :
  Reentrant.heap st !! this = Some sg ->
  Reentrant.quiet_registry this st ->
  exists budget0, forall budget, (budget0 <= budget)%nat ->
    Reentrant.setValue budget this v st
    = Some (Returned tt,
            Reentrant.after_round this sg (map_to_list (Reentrant.subscribers_ sg)) v st).
Proof.
  intros Hsg Hquiet.
  destruct (notify_quiet this (map_to_list (Reentrant.subscribers_ sg)) v
              (Reentrant.mkState (<[this := Reentrant.written sg v]> (Reentrant.heap st))
                 (Reentrant.world st) (Reentrant.calls st))) as [b0 Hb].
  { intros [id cb] Hx. simpl. apply elem_of_map_to_list in Hx.
    rewrite dom_insert_lookup_L by by rewrite Hsg.
    by apply (Hquiet sg id cb v). }
  exists b0. intros budget Hbudget.
  unfold Reentrant.setValue, Reentrant.setValue_with. rewrite Hsg. simpl.
  by rewrite Hb.
Qed.

Lemma after_round_quiet_registry this sg order v st :
  Reentrant.heap st !! this = Some sg ->
  Reentrant.quiet_registry this st ->
  Reentrant.quiet_registry this (Reentrant.after_round this sg order v st).
Proof.
  intros Hsg Hquiet sg' id cb v'. simpl. rewrite lookup_insert_eq.
  intros [= <-] Hid. rewrite dom_insert_lookup_L by by rewrite Hsg.
  by apply (Hquiet sg id cb v').
Qed.

Lemma calls_of_entries_absent {A} this id v (l : list (Z * A)) :
  id ∉ l.*1 -> calls_of this id ((fun x => Call this x.1 v) <$> l) = [].
Proof.
  induction l as [|[k a] l IH]; [done|]. simpl. intros Hid.
  apply not_elem_of_cons in Hid as [Hne Hid].
  unfold calls_of in *. rewrite filter_cons_False; [by apply IH|].
  simpl. intros [_ ?]. by apply Hne.
Qed.

Lemma calls_of_entries_present {A} this id v (l : list (Z * A)) :
  NoDup l.*1 -> id ∈ l.*1 ->
  calls_of this id ((fun x => Call this x.1 v) <$> l) = [v].
Proof.
  induction l as [|[k a] l IH]; simpl; intros Hnd Hid.
  - by apply elem_of_nil in Hid.
  - apply NoDup_cons in Hnd as [Hk Hnd].
    destruct (decide (k = id)) as [->|Hne].
    + unfold calls_of. rewrite filter_cons_True by done. simpl. f_equal.
      by apply (calls_of_entries_absent this id v l).
    + apply elem_of_cons in Hid as [->|Hid]; [done|].
      unfold calls_of in *. rewrite filter_cons_False; [by apply IH|].
      simpl. intros [_ ?]. by apply Hne.
Qed.

Lemma calls_of_entries_other {A} this other id v (l : list (Z * A)) :
  other <> this -> calls_of this id ((fun x => Call other x.1 v) <$> l) = [].
Proof.
  intros Hne. induction l as [|[k a] l IH]; [done|]. simpl.
  unfold calls_of in *. rewrite filter_cons_False; [by apply IH|].
  simpl. intros [? _]. by apply Hne.
Qed.

Lemma calls_of_registry {A} this id v (subs : gmap Z A) :
  calls_of this id ((fun x => Call this x.1 v) <$> map_to_list subs)
  = if subs !! id is Some _ then [v] else [].
Proof.
  destruct (subs !! id) as [a|] eqn:Hid.
  - apply calls_of_entries_present; [apply NoDup_fst_map_to_list|].
    apply list_elem_of_fmap. exists (id, a). split; [done|].
    by apply elem_of_map_to_list.
  - apply calls_of_entries_absent.
    intros Hin. apply list_elem_of_fmap in Hin as ([k a] & -> & Hin).
    apply elem_of_map_to_list in Hin. simpl in Hid. congruence.
Qed.

Lemma reentrant_new_calls_app st st' l :
  Reentrant.calls st' = Reentrant.calls st ++ l -> Reentrant.new_calls st st' = l.
Proof. intros H. unfold Reentrant.new_calls. rewrite H. by rewrite drop_app_length. Qed.

(** A run of writes to a signal with a quiet registry, spelled out. *)
Lemma writes_quiet_registry this ws st sg :
  Reentrant.heap st !! this = Some sg ->
  Reentrant.quiet_registry this st ->
  exists budget0 st' sg' log,
    (forall budget, (budget0 <= budget)%nat ->
       Reentrant.writes budget this ws st = Some (Returned tt, st'))
    /\ Reentrant.each_write_delivered this ws st st'
    /\ Reentrant.heap st' !! this = Some sg'
    /\ Reentrant.subscribers_ sg' = Reentrant.subscribers_ sg
    /\ (forall p, p <> this -> Reentrant.heap st' !! p = Reentrant.heap st !! p)
    /\ Reentrant.quiet_registry this st'
    /\ Reentrant.calls st' = Reentrant.calls st ++ log
    /\ (forall id, calls_of this id log
                   = if Reentrant.subscribers_ sg !! id is Some _ then ws else [])
    /\ (forall p id, p <> this -> calls_of p id log = []).
Proof.
  revert st sg. induction ws as [|v ws IH]; intros st sg Hsg Hquiet.
  - exists 0%nat, st, sg, []. split; [done|]. split; [constructor|].
    split; [done|]. split; [done|]. split; [done|]. split; [done|].
    split; [by rewrite app_nil_r|]. split; [|done].
    intros id. by destruct (Reentrant.subscribers_ sg !! id).
  - destruct (setValue_quiet_registry this v st sg Hsg Hquiet) as [b1 Hb1].
    set (st1 := Reentrant.after_round this sg (map_to_list (Reentrant.subscribers_ sg)) v st)
      in *.
    destruct (IH st1 (Reentrant.written sg v)) as
      (b2 & st' & sg' & log & Hrun & Hdel & Hsg' & Hsubs & Hframe & Hq' & Hcalls & Hin & Hout).
    { subst st1. simpl. apply lookup_insert_eq. }
    { by apply after_round_quiet_registry. }
    exists (max b1 b2), st', sg',
      (((fun x => Call this x.1 v) <$> map_to_list (Reentrant.subscribers_ sg)) ++ log).
    split; [|split; [|split; [|split; [|split; [|split; [|split; [|split]]]]]]].
    + intros budget Hbudget. simpl. rewrite Hb1 by lia. apply Hrun. lia.
    + by apply (Reentrant.delivered_write this v ws st sg
                  (map_to_list (Reentrant.subscribers_ sg))).
    + done.
    + by rewrite Hsubs.
    + intros p Hne. rewrite (Hframe p Hne). subst st1. simpl. by apply lookup_insert_ne.
    + done.
    + rewrite Hcalls. subst st1. simpl. by rewrite app_assoc.
    + intros id. rewrite calls_of_app, calls_of_registry, Hin. simpl.
      by destruct (Reentrant.subscribers_ sg !! id).
    + intros p id Hne. rewrite calls_of_app, (Hout p id Hne), app_nil_r.
      by apply calls_of_entries_other.
Qed.

End reentrant_facts.




(** X18: on a signal whose callbacks change no signal, [unsubscribe]
    removes one subscription and nothing else: it returns, keeps value and
    version, and the registry afterwards is the old one without that id; in
    the writes that follow each write runs every remaining callback once on
    the value written, so any other registered subscription is called with
    each value, in order, and the removed one with none. *)
Theorem unsubscribe_only_that_one {W} (st : Reentrant.State W) (this : loc)
    (sg : Reentrant.Signal W) (sid other : Z)
    (cb' : SignalValue.t -> Reentrant.handler W) (ws : list SignalValue.t) :
  Reentrant.heap st !! this = Some sg ->
  Reentrant.quiet_registry this st ->
  Reentrant.subscribers_ sg !! other = Some cb' ->
  other <> sid ->
  exists st1 sg1 budget0 st2,
    Reentrant.unsubscribe this sid st = (Returned tt, st1)
    /\ Reentrant.heap st1 !! this = Some sg1
    /\ Reentrant.value_ sg1 = Reentrant.value_ sg
    /\ Reentrant.version_ sg1 = Reentrant.version_ sg
    /\ Reentrant.subscribers_ sg1 = delete sid (Reentrant.subscribers_ sg)
    /\ (forall budget, (budget0 <= budget)%nat ->
          Reentrant.writes budget this ws st1 = Some (Returned tt, st2))
    /\ Reentrant.each_write_delivered this ws st1 st2
    /\ calls_of this other (Reentrant.new_calls st1 st2) = ws
    /\ calls_of this sid (Reentrant.new_calls st1 st2) = [].
Proof.
  intros Hsg Hquiet Hother Hne.
  set (sg1 := Reentrant.mkSignal (Reentrant.value_ sg) (Reentrant.version_ sg)
                (delete sid (Reentrant.subscribers_ sg)) (Reentrant.nextSubscriberId_ sg)).
  set (st1 := Reentrant.mkState (<[this := sg1]> (Reentrant.heap st))
                (Reentrant.world st) (Reentrant.calls st)).
  assert (Reentrant.heap st1 !! this = Some sg1) as Hsg1 by apply lookup_insert_eq.
  assert (Reentrant.quiet_registry this st1) as Hquiet1.
  { intros sg' id cb v. rewrite Hsg1. intros [= <-]. simpl.
    rewrite dom_insert_lookup_L by by rewrite Hsg.
    rewrite lookup_delete_Some. intros [_ Hid]. by apply (Hquiet sg id cb v). }
  destruct (writes_quiet_registry this ws st1 sg1 Hsg1 Hquiet1)
    as (b1 & st2 & sg2 & log & Hrun & Hdel & _ & _ & _ & _ & Hcalls & Hlog & _).
  exists st1, sg1, b1, st2.
  split; [unfold Reentrant.unsubscribe; by rewrite Hsg|].
  split; [done|]. split; [done|]. split; [done|]. split; [done|].
  split; [done|]. split; [done|].
  rewrite (reentrant_new_calls_app _ _ _ Hcalls), !Hlog. simpl.
  rewrite lookup_delete_ne by done. rewrite Hother, lookup_delete_eq. done.
Qed.

(** X19: on a signal whose callbacks change no signal, a write concerns
    that signal only: it returns, every other signal object is left as it
    was, and no callback is invoked on behalf of another signal.  (A
    callback that does write another signal changes it, as the second
    scenario at the end shows.) *)
Theorem setValue_frame {W} (st : Reentrant.State W) (this : loc)
    (sg : Reentrant.Signal W) (v : SignalValue.t) :
  Reentrant.heap st !! this = Some sg ->
  Reentrant.quiet_registry this st ->
  exists budget0 st',
    (forall budget, (budget0 <= budget)%nat ->
       Reentrant.setValue budget this v st = Some (Returned tt, st'))
    /\ Reentrant.each_write_delivered this [v] st st'
    /\ (forall p, p <> this ->
          Reentrant.heap st' !! p = Reentrant.heap st !! p
          /\ forall sid, calls_of p sid (Reentrant.new_calls st st') = []).
Proof.
  intros Hsg Hquiet.
  destruct (writes_quiet_registry this [v] st sg Hsg Hquiet)
    as (b1 & st' & sg' & log & Hrun & Hdel & _ & _ & Hframe & _ & Hcalls & _ & Hout).
  exists b1, st'. split; [|split; [done|]].
  - intros budget Hb. specialize (Hrun budget Hb). simpl in Hrun.
    destruct (Reentrant.setValue budget this v st) as [[[[]|e|] st1]|]; try done.
  - intros p Hne. split; [by apply Hframe|].
    intros sid. rewrite (reentrant_new_calls_app _ _ _ Hcalls). by apply Hout.
Qed.

(** * The further properties at concrete inputs *)

Lemma setSignal_frame_witness :
  store_wf two_signals
  /\ answer (JSISignalStore.getSignal "sig_1_1700000001")
            (JSISignalStore.setSignal "sig_0_1700000000" (SignalValue.of_string "x")
                                      two_signals).2
     = Returned (SignalValue.of_bool false).
Proof.
  assert (store_wf two_signals) as Hwf by apply serve_wf, initial_state_wf.
  split; [exact Hwf|].
  destruct (setSignal_frame two_signals _ "sig_0_1700000000" (SignalValue.of_string "x") _
              Hwf (surjective_pairing _)) as (Hothers & _).
  destruct (Hothers "sig_1_1700000001") as [Hval _]; [done|].
  rewrite Hval. reflexivity.
Defined.

Lemma createSignal_frame_witness :
  store_wf two_signals
  /\ answer (JSISignalStore.getSignalVersion "sig_0_1700000000")
            (JSISignalStore.createSignal SignalValue.default 7 two_signals).2
     = Returned 0.
Proof.
  assert (store_wf two_signals) as Hwf by apply serve_wf, initial_state_wf.
  split; [exact Hwf|].
  destruct (createSignal_frame two_signals
              (JSISignalStore.createSignal SignalValue.default 7 two_signals).2
              SignalValue.default 7 "sig_2_7" Hwf eq_refl "sig_0_1700000000")
    as (_ & Hver & _); [done|].
  rewrite Hver. reflexivity.
Defined.

Lemma createSignal_adds_one_witness :
  exists id st' n,
    JSISignalStore.createSignal SignalValue.default 5
      (serve [CreateSignal SignalValue.default 5; DeleteSignal "sig_0_5"]
             (initial_state tt)).2 = (Returned id, st')
    /\ answer JSISignalStore.getSignalCount
         (serve [CreateSignal SignalValue.default 5; DeleteSignal "sig_0_5"]
                (initial_state tt)).2 = Returned n
    /\ answer JSISignalStore.getSignalCount st' = Returned (n + 1).
Proof.
  destruct (createSignal_adds_one tt
              [CreateSignal SignalValue.default 5; DeleteSignal "sig_0_5"]
              SignalValue.default 5) as (id & st' & n & H1 & _ & H3 & H4);
    [reflexivity|].
  exists id, st', n. split; [exact H1|]. split; [exact H3|exact H4].
Defined.

Lemma rewrite_same_value_witness :
  exists st' n,
    JSISignalStore.setSignal "sig_0_1700000000" (SignalValue.of_double 42%float) flanked
    = (Returned tt, st')
    /\ JSISignalStore.getSignalVersion "sig_0_1700000000" st' = (Returned n, st')
    /\ n <> 0
    /\ world st' ≡ₚ [SignalValue.of_double 42%float; SignalValue.of_string "failing";
                     SignalValue.of_double 42%float].
Proof.
  destruct (rewrite_same_value flanked "sig_0_1700000000" 0%N flanked_signal
              eq_refl eq_refl) as (st' & n & order & H1 & _ & H3 & H4 & _).
  exists st', n. split; [exact H1|]. split; [exact H3|]. split; [exact H4|].
  assert (st' = (JSISignalStore.setSignal "sig_0_1700000000"
                   (value_ flanked_signal) flanked).2) as ->
    by by rewrite H1.
  reflexivity.
Defined.

Lemma batchUpdate_unknown_only_witness :
  JSISignalStore.batchUpdate
    [("sig_7_0"%string, SignalValue.of_bool true); ("x"%string, SignalValue.default)]
    two_signals
  = (Returned tt, two_signals).
Proof.
  apply (batchUpdate_unknown_only two_signals
           [("sig_7_0"%string, SignalValue.of_bool true); ("x"%string, SignalValue.default)]).
  intros u Hu. apply list_elem_of_In in Hu.
  destruct Hu as [<-|[<-|[]]]; reflexivity.
Defined.


Lemma subscribe_keeps_subscribers_witness :
  subscriptions_below watched_signal
  /\ exists st' sg',
       Signal.subscribe 0%N recorder watched = (Returned 2, st')
       /\ heap st' !! 0%N = Some sg'
       /\ subscribers_ sg' !! 0 = Some thrower
       /\ size (subscribers_ sg') = 3%nat.
Proof.
  assert (subscriptions_below watched_signal) as Hbelow.
  { split; [done|]. intros id [cb Hid].
    unfold watched_signal in Hid. simpl in Hid.
    apply lookup_insert_Some in Hid as [[<- _]|[_ Hid]]; [done|].
    apply lookup_insert_Some in Hid as [[<- _]|[_ Hid]]; [done|].
    by rewrite lookup_empty in Hid. }
  split; [exact Hbelow|].
  destruct (subscribe_keeps_subscribers watched 0%N watched_signal recorder
              eq_refl Hbelow) as (st' & sg' & H1 & H2 & _ & _ & H5 & H6 & _);
    [reflexivity|].
  exists st', sg'. split; [exact H1|]. split; [exact H2|]. split.
  - rewrite H5; [reflexivity|done].
  - rewrite H6. reflexivity.
Defined.

Lemma toJSI_then_back_witness :
  SignalValue.of_jsi (SignalValue.toJSI (SignalValue.of_jsi (jsi.Object "[object Object]")))
  = SignalValue.of_string "[object Object]".
Proof.
  destruct (toJSI_then_back (SignalValue.of_jsi (jsi.Object "[object Object]")))
    as [Hback _]; [constructor|].
  rewrite Hback. reflexivity.
Defined.

Lemma generateSignalId_injective_witness :
  exists id1 id2 st1' st2',
    JSISignalStore.generateSignalId 6 (initial_state (@nil SignalValue.t))
    = (Returned id1, st1')
    /\ JSISignalStore.generateSignalId 6 two_signals = (Returned id2, st2')
    /\ id1 <> id2.
Proof.
  destruct (generateSignalId_injective (initial_state []) two_signals 6 6)
    as (id1 & id2 & st1' & st2' & H1 & H2 & _ & _ & _ & Hiff); [done|done|].
  exists id1, id2, st1', st2'. split; [exact H1|]. split; [exact H2|].
  intros Heq. apply Hiff in Heq as [Hcounter _]. discriminate Hcounter.
Defined.

Lemma bindings_reject_malformed_witness :
  bindings.setSignalFunc [jsi.String "sig_0_1700000000"] two_signals
  = (bindings.JSError "setSignal requires signal ID and new value", two_signals)
  /\ bindings.getSignalFunc [jsi.Number 3%float] two_signals
     = (bindings.JSError "getSignal requires a string signal ID", two_signals).
Proof.
  split.
  - apply (bindings_reject_malformed two_signals bindings.CallSetSignal
             [jsi.String "sig_0_1700000000"]). reflexivity.
  - apply (bindings_reject_malformed two_signals bindings.CallGetSignal
             [jsi.Number 3%float]). reflexivity.
Defined.

Lemma bindings_fail_only_with_JSError_witness :
  store_wf two_signals
  /\ bindings.well_formed bindings.CallGetVersion
       [jsi.String (String.String "a" (String.String "000" "b"))] = true
  /\ bindings.getVersionFunc [jsi.String (String.String "a" (String.String "000" "b"))]
                             two_signals
     = (bindings.JSError "Signal not found: a", two_signals)
  /\ bindings.getSignalFunc [jsi.String "sig_9_0"] two_signals
     = (bindings.JSError "Signal not found: sig_9_0", two_signals).
Proof.
  assert (store_wf two_signals) as Hwf by apply serve_wf, initial_state_wf.
  split; [exact Hwf|]. split; [reflexivity|]. split.
  - destruct (bindings_fail_only_with_JSError two_signals bindings.CallGetVersion
                [jsi.String (String.String "a" (String.String "000" "b"))] Hwf eq_refl)
      as [(v & st' & Hret & _)|(id & rest & Hargs & _ & Hthrow & _)].
    + discriminate Hret.
    + injection Hargs as <- _. exact Hthrow.
  - destruct (bindings_fail_only_with_JSError two_signals bindings.CallGetSignal
                [jsi.String "sig_9_0"] Hwf eq_refl)
      as [(v & st' & Hret & _)|(id & rest & Hargs & _ & _ & Hthrow & _)].
    + discriminate Hret.
    + injection Hargs as <- _. apply Hthrow. by compute.
Defined.

Lemma listened_quiet : Reentrant.quiet_registry 0%N listened.
Proof.
  intros sg id cb v Hsg Hid. unfold listened in Hsg. simpl in Hsg.
  rewrite lookup_insert_eq in Hsg. injection Hsg as <-. simpl in Hid.
  apply lookup_insert_Some in Hid as [[_ <-]|[_ Hid]].
  { apply Reentrant.quiet_Update, Reentrant.quiet_Raise. }
  apply lookup_insert_Some in Hid as [[_ <-]|[_ Hid]]; [|by rewrite lookup_empty in Hid].
  apply Reentrant.quiet_CallGetValue.
  - apply elem_of_dom. by eexists.
  - intros held. apply Reentrant.quiet_Update, Reentrant.quiet_Finish.
Qed.

Lemma unsubscribe_only_that_one_witness :
  Reentrant.quiet_registry 0%N listened
  /\ exists st1 st2,
       Reentrant.unsubscribe 0%N 0 listened = (Returned tt, st1)
       /\ Reentrant.writes 3 0%N [SignalValue.of_bool true; SignalValue.of_bool false] st1
          = Some (Returned tt, st2)
       /\ calls_of 0%N 1 (Reentrant.new_calls st1 st2)
          = [SignalValue.of_bool true; SignalValue.of_bool false]
       /\ calls_of 0%N 0 (Reentrant.new_calls st1 st2) = []
       /\ Reentrant.world st2 = [SignalValue.of_bool true; SignalValue.of_bool false].
Proof.
  split; [exact listened_quiet|].
  destruct (unsubscribe_only_that_one listened 0%N listened_signal 0 1 echo
              [SignalValue.of_bool true; SignalValue.of_bool false]
              eq_refl listened_quiet eq_refl)
    as (st1 & sg1 & budget0 & st2 & Hunsub & _ & _ & _ & _ & Hrun & _ & Hother & Hsid);
    [done|].
  injection Hunsub as <-.
  specialize (Hrun (max budget0 3) ltac:(lia)).
  erewrite (writes_budget_mono 3) in Hrun; [|lia|reflexivity].
  injection Hrun as <-.
  eexists _, _. split; [reflexivity|]. split; [reflexivity|].
  split; [exact Hother|]. split; [exact Hsid|reflexivity].
Defined.

Lemma setValue_frame_witness :
  Reentrant.quiet_registry 0%N listened
  /\ (exists st',
        Reentrant.setValue 3 0%N (SignalValue.of_bool true) listened = Some (Returned tt, st')
        /\ Reentrant.heap st' !! 1%N = Some neighbour_signal
        /\ calls_of 1%N 0 (Reentrant.new_calls listened st') = []
        /\ Reentrant.world st' ≡ₚ [SignalValue.of_bool true; SignalValue.of_string "failing"])
  /\ (exists st' changed,
        Reentrant.setValue 6 0%N (SignalValue.of_bool true) meddled = Some (Returned tt, st')
        /\ Reentrant.heap st' !! 1%N = Some changed
        /\ Reentrant.value_ changed = SignalValue.of_bool true
        /\ Reentrant.version_ changed = 1).
Proof.
  split; [exact listened_quiet|]. split.
  - destruct (setValue_frame listened 0%N listened_signal (SignalValue.of_bool true)
                eq_refl listened_quiet) as (budget0 & st' & Hrun & _ & Hframe).
    specialize (Hrun (max budget0 3) ltac:(lia)).
    erewrite (setValue_budget_mono 3) in Hrun; [|lia|reflexivity].
    injection Hrun as <-.
    destruct (Hframe 1%N) as [Hheap Hcalls]; [done|].
    eexists. split; [reflexivity|]. split; [exact Hheap|].
    split; [apply Hcalls|reflexivity].
  - eexists _, _. split; [reflexivity|]. split; [reflexivity|]. split; reflexivity.
Defined.
